(** * Wheel of names: a shallow embedding of [script.js]

    The script keeps three mutable globals ([names], [rotation], [spinning]),
    a handful of DOM elements and one animation callback.  Here they become
    one record, [State], and every function of the script becomes a function
    on that record.

    Numbers.  JavaScript numbers are modelled as exact rationals ([Q]):
    every finite double is a rational, and all operators below are the exact
    ones ([Math.floor] is [Qfloor], [%] is the truncated remainder, [/] is
    exact division).  Rounding of the double operations is not modelled:
    two numbers that are equal here can differ in the last place in the
    script (the rotation set by the last frame and [endRotation]; the end
    of one slice and the start of the next), and at the very edge of a
    slice the index can differ by one.

    Strings.  A JavaScript string is the list of its UTF-16 code units. *)

From Stdlib Require Import QArith Qround Qminmax ZArith List Bool String Ascii.
From Stdlib Require Import Lia Lqa Morphisms.
Import ListNotations.

Open Scope Q_scope.

(** ** JavaScript primitives used by the script *)

Module JS.

(** *** Numbers *)

Definition Math_floor (x : Q) : Q := inject_Z (Qfloor x).

(** Integer part, rounding toward zero. *)
Definition trunc (x : Q) : Z := Z.quot (Qnum x) (Zpos (Qden x)).

(** The [%] operator: the remainder has the sign of the dividend.
    (The script only ever divides by the constant 360.) *)
Definition rem (x y : Q) : Q := x - inject_Z (trunc (x / y)) * y.

Definition Math_min (x y : Q) : Q := Qmin x y.

(** [Math.pow] at a literal integer exponent. *)
Definition Math_pow (x : Q) (n : Z) : Q := Qpower x n.

(** *** Strings *)

Definition code_unit := N.
Definition jsstring := list code_unit.

(** An ASCII literal as a JavaScript string. *)
Definition str (s : string) : jsstring :=
  map N_of_ascii (list_ascii_of_string s).

Definition is_empty (s : jsstring) : bool :=
  match s with [] => true | _ => false end.

(** WhiteSpace and LineTerminator code points of ECMAScript, the
    characters removed by [String.prototype.trim]. *)
Definition is_space (c : code_unit) : bool :=
  ((9 <=? c) && (c <=? 13) || (c =? 32) || (c =? 160) || (c =? 5760)
   || (8192 <=? c) && (c <=? 8202) || (c =? 8232) || (c =? 8233)
   || (c =? 8239) || (c =? 8287) || (c =? 12288) || (c =? 65279))%N.

Fixpoint trimStart (s : jsstring) : jsstring :=
  match s with
  | [] => []
  | c :: r => if is_space c then trimStart r else s
  end.

Definition trim (s : jsstring) : jsstring :=
  rev (trimStart (rev (trimStart s))).

(** [s.split(sep)] for a one-character separator: never returns the
    empty array, the empty string splits into one empty string. *)
Fixpoint split (sep : code_unit) (s : jsstring) : list jsstring :=
  match s with
  | [] => [[]]
  | c :: r =>
      if (c =? sep)%N then [] :: split sep r
      else match split sep r with
           | h :: t => (c :: h) :: t
           | [] => [[c]]
           end
  end.

(** [arr.join(sep)]. *)
Fixpoint join (sep : jsstring) (l : list jsstring) : jsstring :=
  match l with
  | [] => []
  | [x] => x
  | x :: r => x ++ sep ++ join sep r
  end.

(** [arr[i]] for a number [i]: an element when [i] is an integer in
    range, [undefined] ([None]) otherwise. *)
Definition get {A} (arr : list A) (i : Q) : option A :=
  if Qeq_bool i (inject_Z (Qfloor i)) && (0 <=? Qfloor i)%Z
  then nth_error arr (Z.to_nat (Qfloor i))
  else None.

(** [arr.length] as a number. *)
Definition length {A} (arr : list A) : Q :=
  inject_Z (Z.of_nat (List.length arr)).

End JS.

Import JS.

(** ** Default data and state (script.js, lines 1-37) *)

Definition defaultNames : list jsstring :=
  map str ["Alice"; "Bob"; "Charlie"; "Diana"; "Eve"; "Frank"; "Grace"; "Heidi"]%string.

(** What the closure [animate] captures when [spin] creates it. *)
Record SpinSession := mkSession {
  targetIndex : Q;
  duration : Q;
  start : Q;
  startRotation : Q;
  endRotation : Q
}.

Record State := mkState {
  names : list jsstring;            (* let names *)
  rotation : Q;                     (* let rotation *)
  spinning : bool;                  (* let spinning *)
  spinBtn_disabled : bool;          (* spinBtn.disabled *)
  updateBtn_disabled : bool;        (* updateBtn.disabled *)
  namesInput_value : jsstring;      (* namesInput.value *)
  resultText : jsstring;            (* resultText.textContent *)
  spinSound_playing : bool;         (* spinSound, play()/pause() *)
  winSound_plays : nat;             (* number of winSound.play() calls *)
  canvas : option (Q * list jsstring);
                                    (* last drawWheel: its rotDeg and the names drawn *)
  pending : option SpinSession      (* callback handed to requestAnimationFrame *)
}.

(** ** Drawing (lines 42-92)

    The picture is a function of [rotDeg] and of [names]; the canvas is
    abstracted to that pair. *)

Definition drawWheel (rotDeg : Q) (s : State) : State :=
  mkState (names s) (rotation s) (spinning s) (spinBtn_disabled s)
          (updateBtn_disabled s) (namesInput_value s) (resultText s)
          (spinSound_playing s) (winSound_plays s)
          (Some (rotDeg, names s)) (pending s).

(** ** Easing (lines 125-128) *)

Definition easeOutCubic (t : Q) : Q := 1 - Math_pow (1 - t) 3.

(** ** Spin logic (lines 135-175) *)

(** The values [Math.random()] returns at its three calls in [spin], and
    the value of [performance.now()]. *)
Record SpinEnv := mkEnv {
  random1 : Q;
  random2 : Q;
  random3 : Q;
  now0 : Q
}.

(** Local constants of [spin], as functions of what they depend on. *)
Definition anglePer (segCount : Q) : Q := 360 / segCount.

Definition targetMidAngle (targetIndex segCount : Q) : Q :=
  (targetIndex * anglePer segCount) + (anglePer segCount / 2) - 90.

Definition finalRotation (fullRot targetIndex segCount : Q) : Q :=
  fullRot * 360 + targetMidAngle targetIndex segCount.

Definition spin (e : SpinEnv) (s : State) : State :=
  if spinning s || (List.length (names s) =? 0)%nat then s
  else
    let segCount := JS.length (names s) in
    let targetIndex := Math_floor (random1 e * segCount) in
    let fullRot := 4 + Math_floor (random2 e * 3) in
    let duration := 4200 + Math_floor (random3 e * 1200) in
    let start := now0 e in
    let startRotation := rem (rotation s) 360 in
    let endRotation := rotation s + finalRotation fullRot targetIndex segCount in
    mkState (names s) (rotation s) true true true (namesInput_value s)
            (str "Spinning...") true (winSound_plays s) (canvas s)
            (Some (mkSession targetIndex duration start startRotation endRotation)).

(** ** Finish spin and pick winner (lines 182-208) *)

Definition dash : jsstring := [8212%N].

(** The index computed at line 200. *)
Definition winnerIndex (rotation segCount : Q) : Q :=
  let normalizedRotation := rem rotation 360 in
  let pointerAngle := 270 in
  Math_floor (rem (360 + pointerAngle - normalizedRotation) 360 / (360 / segCount)).

(** [names[index] || '—']: the fallback is taken for [undefined] and for
    the empty string. *)
Definition winnerName (names : list jsstring) (index : Q) : jsstring :=
  match get names index with
  | Some n => if is_empty n then dash else n
  | None => dash
  end.

Definition finishSpin (winIndex : Q) (s : State) : State :=
  let segCount := JS.length (names s) in
  let index := winnerIndex (rotation s) segCount in
  let winner := winnerName (names s) index in
  mkState (names s) (rotation s) false false false (namesInput_value s)
          (str "Winner: " ++ winner) false (S (winSound_plays s)) (canvas s)
          (pending s).

(** ** The animation callback (lines 162-172) *)

Definition progress (ss : SpinSession) (now : Q) : Q :=
  let elapsed := now - start ss in
  Math_min 1 (elapsed / duration ss).

Definition frameRotation (ss : SpinSession) (now : Q) : Q :=
  let eased := easeOutCubic (progress ss now) in
  startRotation ss + (endRotation ss - startRotation ss) * eased.

Definition animate (ss : SpinSession) (now : Q) (s : State) : State :=
  let t := progress ss now in
  let rot := frameRotation ss now in
  let s1 :=
    drawWheel rot
      (mkState (names s) rot (spinning s) (spinBtn_disabled s)
               (updateBtn_disabled s) (namesInput_value s) (resultText s)
               (spinSound_playing s) (winSound_plays s) (canvas s) None) in
  if Qlt_le_dec t 1
  then mkState (names s1) (rotation s1) (spinning s1) (spinBtn_disabled s1)
               (updateBtn_disabled s1) (namesInput_value s1) (resultText s1)
               (spinSound_playing s1) (winSound_plays s1) (canvas s1) (Some ss)
  else finishSpin (targetIndex ss) s1.

(** ** UI event handlers (lines 216-240) *)

Definition comma : code_unit := 44%N.

Definition parseNames (raw : jsstring) : list jsstring :=
  filter (fun x => negb (is_empty x)) (map trim (split comma raw)).

(** The click handler of [updateBtn]. *)
Definition updateClick (s : State) : State :=
  let raw := trim (namesInput_value s) in
  if is_empty raw then s
  else
    let arr := parseNames raw in
    let names' := match arr with [] => defaultNames | _ => arr end in
    drawWheel 0
      (mkState names' 0 (spinning s) (spinBtn_disabled s)
               (updateBtn_disabled s) (namesInput_value s)
               (str "Winner: " ++ dash) (spinSound_playing s)
               (winSound_plays s) (canvas s) (pending s)).

(** The [keydown] handler of the document. *)
Definition keydown (code : jsstring) (e : SpinEnv) (s : State) : State :=
  if list_eq_dec N.eq_dec code (str "Space") then spin e s else s.

(** What the script finds in the page and never sets before the first
    event: the text of the result element and whether the two buttons are
    disabled in the markup. *)
Record Page := mkPage {
  page_result : jsstring;
  page_spinBtn_disabled : bool;
  page_updateBtn_disabled : bool
}.

(** State after the script has run top to bottom (lines 17-19, 28, 232). *)
Definition initial (p : Page) : State :=
  drawWheel 0
    (mkState defaultNames 0 false (page_spinBtn_disabled p)
             (page_updateBtn_disabled p) (join (str ", ") defaultNames)
             (page_result p) false 0%nat None None).

(** ** The page as a transition system

    The browser runs the handlers above in response to events.  A disabled
    button dispatches no click; the [keydown] listener sits on the document
    and always runs; an animation frame runs the registered callback, if
    there is one. *)

Inductive event :=
| TypeNames (raw : jsstring)                 (* the user edits the text field *)
| ClickUpdate
| ClickSpin (e : SpinEnv)
| KeyDown (code : jsstring) (e : SpinEnv)
| AnimationFrame (now : Q).

Definition setInput (raw : jsstring) (s : State) : State :=
  mkState (names s) (rotation s) (spinning s) (spinBtn_disabled s)
          (updateBtn_disabled s) raw (resultText s) (spinSound_playing s)
          (winSound_plays s) (canvas s) (pending s).

Definition step (ev : event) (s : State) : State :=
  match ev with
  | TypeNames raw => setInput raw s
  | ClickUpdate => if updateBtn_disabled s then s else updateClick s
  | ClickSpin e => if spinBtn_disabled s then s else spin e s
  | KeyDown code e => keydown code e s
  | AnimationFrame now =>
      match pending s with
      | Some ss => animate ss now s
      | None => s
      end
  end.

Definition run (evs : list event) (s : State) : State :=
  fold_left (fun st ev => step ev st) evs s.

(** [Math.random()] returns a number in [0, 1). *)
Definition unit_interval (u : Q) : Prop := 0 <= u /\ u < 1.

Definition valid_env (e : SpinEnv) : Prop :=
  unit_interval (random1 e) /\ unit_interval (random2 e) /\
  unit_interval (random3 e).

Definition valid_event (ev : event) : Prop :=
  match ev with
  | ClickSpin e | KeyDown _ e => valid_env e
  | _ => True
  end.

Inductive reachable : State -> Prop :=
| reach_initial : forall p, reachable (initial p)
| reach_step : forall s ev,
    reachable s -> valid_event ev -> reachable (step ev s).

(** What holds in every reachable state (proved below). *)
Record invariant (s : State) : Prop := mkInv {
  inv_names : names s <> [];
  inv_entries : Forall (fun n => n <> []) (names s);
  inv_idle : spinning s = false -> 0 <= rotation s /\ pending s = None;
  inv_buttons : spinning s = true ->
                spinBtn_disabled s = true /\ updateBtn_disabled s = true;
  inv_session : forall ss, pending s = Some ss ->
                spinning s = true /\ 0 < duration ss /\
                0 <= startRotation ss /\ startRotation ss <= endRotation ss
}.

(** ** Scenarios used below *)

(** A page with an empty result element and both buttons enabled. *)
Definition plainPage : Page := mkPage [] false false.

Definition namesAB : list jsstring := [str "A"; str "B"].

(** Draws that make [spin] choose slice 1 of 2, four turns, 4200 ms. *)
Definition envAB : SpinEnv := mkEnv (1 # 2) 0 0 0.

Definition stateAB : State :=
  run [TypeNames (str "A,B"); ClickUpdate] (initial plainPage).

(** First draws of every kind are 0: slice 0, four turns, 4200 ms. *)
Definition env0 (now : Q) : SpinEnv := mkEnv 0 0 0 now.

(** One complete spin of the default wheel, then a second spin started. *)
Definition secondSpinStarted : State :=
  run [ClickSpin (env0 0); AnimationFrame 4200; ClickSpin (env0 5000)]
      (initial plainPage).

(** A wheel whose only name is X, with a blank text field. *)
Definition stateX_blank : State :=
  run [TypeNames (str "X"); ClickUpdate; TypeNames (str "   ")] (initial plainPage).

(** A spin in progress, with B typed in the text field. *)
Definition spinningWithInput : State :=
  run [TypeNames (str "B"); ClickSpin (env0 0)] (initial plainPage).

(** ** Statements of the specification that the code does not satisfy *)

(** Round trip: the winner resolved from the end rotation built for
    [targetIndex], starting at rotation 0, is [targetIndex]. *)
Definition round_trip_statement : Prop :=
  forall N i F : Z, (1 <= N)%Z -> (0 <= i < N)%Z -> (4 <= F <= 6)%Z ->
    winnerIndex (0 + finalRotation (inject_Z F) (inject_Z i) (inject_Z N))
                (inject_Z N) == inject_Z i.


(** The update handler does nothing while [spinning] is set. *)
Definition update_guarded_statement : Prop :=
  forall s, reachable s -> spinning s = true ->
    names (updateClick s) = names s /\
    rotation (updateClick s) = rotation s /\
    resultText (updateClick s) = resultText s.

(** A blank input, or one that parses to no entry, installs the default
    list. *)
Definition blank_update_statement : Prop :=
  forall s, reachable s ->
    forallb is_space (namesInput_value s) = true \/
    parseNames (namesInput_value s) = [] ->
    names (updateClick s) = defaultNames.

(** ** Further invariants of the page (proved below) *)

Record display_invariant (s : State) : Prop := mkDisplayInv {
  di_canvas : canvas s = Some (rotation s, names s);
  di_sound : spinSound_playing s = spinning s;
  di_pending : spinning s = true -> pending s <> None;
  di_duration : forall ss, pending s = Some ss ->
                4200 <= duration ss /\ duration ss < 5400
}.

(** A name as the text field round trip needs it: not empty, no whitespace
    at either end, no comma inside. *)
Definition clean (n : jsstring) : bool :=
  negb (is_empty n) && negb (is_space (hd 0%N n)) &&
  negb (is_space (last n 0%N)) && forallb (fun c => negb (c =? comma)%N) n.

(** ** What [drawWheel] and [wrapText] send to the canvas (lines 42-118)

    The 2D context is write-only for the script, except for
    [measureText]; a call of [drawWheel] is modelled by the list of
    context operations it issues, in order.  Angles are kept as multiples
    of [Math.PI]: [Rotate q] is [ctx.rotate(q * Math.PI)]. *)

Module Render.

Inductive command :=
| ClearRect (x y w h : Q)
| Save
| Restore
| Translate (x y : Q)
| Rotate (halfTurns : Q)
| BeginPath
| ClosePath
| MoveTo (x y : Q)
| LineToPolar (r halfTurns : Q)   (* lineTo(r * cos(a), r * sin(a)), a = halfTurns * PI *)
| Arc (x y r startHalfTurns endHalfTurns : Q)
| FillStyle (c : jsstring)
| StrokeStyle (c : jsstring)
| LineWidth (w : Q)
| Fill
| Stroke
| Font (px : Q)                   (* `${px}px system-ui, sans-serif` *)
| TextAlign (a : jsstring)
| TextBaseline (b : jsstring)
| FillText (text : jsstring) (x y : Q).

(** A call either returns or throws a [TypeError]; either way the
    operations issued so far have reached the canvas. *)
Inductive outcome :=
| Completed (issued : list command)
| TypeError (issued : list command).

Definition issued (o : outcome) : list command :=
  match o with Completed cs | TypeError cs => cs end.

Definition after (pre : list command) (o : outcome) : outcome :=
  match o with
  | Completed cs => Completed (pre ++ cs)
  | TypeError cs => TypeError (pre ++ cs)
  end.

Definition andThen (o : outcome) (k : list command -> outcome) : outcome :=
  match o with
  | Completed cs => after cs (k cs)
  | TypeError cs => TypeError cs
  end.

Definition space : code_unit := 32%N.

Section Canvas.

(** [context.measureText(s).width], at the font [drawWheel] has set. *)
Variable measureText : jsstring -> Q.

(** [canvas.width]. *)
Variable size : Q.

Definition cx : Q := size / 2.
Definition cy : Q := size / 2.
Definition radius : Q := size / 2 - 6.

(** The [for] loop of [wrapText], from word number [n] on. *)
Fixpoint wrapLines (x maxWidth lineHeight : Q) (words : list jsstring)
    (n : nat) (line : jsstring) (lineY : Q) {struct words} : list command :=
  match words with
  | [] => [FillText (trim line) x lineY]
  | w :: rest =>
      let testLine := line ++ w ++ [space] in
      if negb (Qle_bool (measureText testLine) maxWidth) && (0 <? n)%nat
      then FillText (trim line) x lineY
             :: wrapLines x maxWidth lineHeight rest (S n) (w ++ [space])
                  (lineY + lineHeight)
      else wrapLines x maxWidth lineHeight rest (S n) testLine lineY
  end.

(** [text] is [None] for [undefined], on which [text.split] throws. *)
Definition wrapText (text : option jsstring) (x y maxWidth lineHeight : Q)
  : outcome :=
  match text with
  | None => TypeError []
  | Some t => Completed (wrapLines x maxWidth lineHeight (split space t) 0 [] y)
  end.

Definition sliceColor (i : nat) : jsstring :=
  if Nat.even i then str "#EFB83A" else str "#33D7FF".

(** The body of the slice loop, up to the call of [wrapText]. *)
Definition sliceHead (anglePer : Q) (i : nat) : list command :=
  let start := inject_Z (Z.of_nat i) * anglePer in
  let end_ := start + anglePer in
  [ BeginPath; MoveTo 0 0; Arc 0 0 radius start end_; ClosePath;
    FillStyle (sliceColor i); Fill;
    BeginPath; MoveTo 0 0; LineToPolar radius start;
    StrokeStyle (str "#fff"); LineWidth 2; Stroke;
    Save; Rotate (start + anglePer / 2); Translate (radius * (6 # 10)) 0;
    Rotate (1 # 2); FillStyle (str "#122049");
    Font (Qmax 12 (Math_floor (radius / 10)));
    TextAlign (str "center"); TextBaseline (str "middle") ].

(** Iterations [i], [i + 1], ... of the slice loop, [count] of them. *)
Fixpoint slices (names : list jsstring) (anglePer : Q) (count i : nat)
  : outcome :=
  match count with
  | O => Completed []
  | S count' =>
      match wrapText (nth_error names i) 0 0 (radius * (45 # 100))
                     (Math_floor (radius / 9)) with
      | TypeError cs => TypeError (sliceHead anglePer i ++ cs)
      | Completed cs =>
          after (sliceHead anglePer i ++ cs ++ [Restore])
                (slices names anglePer count' (S i))
      end
  end.

Definition outerRing : list command :=
  [ BeginPath; Arc 0 0 (radius + 4) 0 2; LineWidth 6;
    StrokeStyle (str "rgba(255,255,255,0.8)"); Stroke ].

Definition drawWheel (rotDeg : Q) (names : list jsstring) : outcome :=
  let segCount := Nat.max 1 (List.length names) in
  let anglePer := 2 / inject_Z (Z.of_nat segCount) in
  after [ClearRect 0 0 size size; Save; Translate cx cy; Rotate (rotDeg / 180)]
    (andThen (slices names anglePer segCount 0)
       (fun _ => Completed (outerRing ++ [Restore]))).

End Canvas.

(** *** Observations on a list of operations *)

(** Saves not yet restored after [cs], starting with [open] of them;
    [None] if [cs] restores more than it saved. *)
Fixpoint unrestored (cs : list command) (open : nat) : option nat :=
  match cs with
  | [] => Some open
  | Save :: r => unrestored r (S open)
  | Restore :: r =>
      match open with
      | O => None
      | S o => unrestored r o
      end
  | _ :: r => unrestored r open
  end.

(** The texts painted, in order. *)
Fixpoint texts (cs : list command) : list jsstring :=
  match cs with
  | [] => []
  | FillText t _ _ :: r => t :: texts r
  | _ :: r => texts r
  end.

(** The arcs traced, in order: radius, start and end. *)
Fixpoint arcs (cs : list command) : list (Q * Q * Q) :=
  match cs with
  | [] => []
  | Arc _ _ r a b :: rest => (r, a, b) :: arcs rest
  | _ :: rest => arcs rest
  end.

(** The fill colours set, in order. *)
Fixpoint fills (cs : list command) : list jsstring :=
  match cs with
  | [] => []
  | FillStyle c :: r => c :: fills r
  | _ :: r => fills r
  end.

End Render.

(** A [measureText] for the examples: ten pixels a code unit. *)
Definition monospace (s : jsstring) : Q := 10 * JS.length s.

(** What one run of the slice loop leaves, for the observations above. *)
Record slices_summary (measureText : jsstring -> Q) (size : Q)
    (names : list jsstring) (anglePer : Q) (count i : nat)
    (cs : list Render.command) : Prop := mkSummary {
  sum_balanced : forall k, Render.unrestored cs k = Some k;
  sum_arcs : Render.arcs cs =
             map (fun j => (Render.radius size,
                            inject_Z (Z.of_nat j) * anglePer,
                            inject_Z (Z.of_nat j) * anglePer + anglePer))
                 (seq i count);
  sum_fills : Render.fills cs =
              List.concat (map (fun j => [Render.sliceColor j; str "#122049"])
                               (seq i count));
  sum_texts : Render.texts cs =
              List.concat
                (map (fun n => Render.texts (Render.issued
                        (Render.wrapText measureText (Some n) 0 0
                           (Render.radius size * (45 # 100))
                           (Math_floor (Render.radius size / 9)))))
                     (firstn count (skipn i names)))
}.

(** * Facts about the primitives

    ** Truncation, remainder and floor *)

Lemma trunc_nonneg (x : Q) : 0 <= x -> trunc x = Qfloor x.
Proof.
  destruct x as [n d]. unfold trunc, Qfloor, Qle. simpl. intros H.
  apply Z.quot_div_nonneg; lia.
Qed.

Lemma trunc_neg (x : Q) : x <= 0 -> trunc x = Qceiling x.
Proof.
  destruct x as [n d]. unfold trunc, Qceiling, Qfloor, Qopp, Qle. simpl. intros H.
  rewrite <- (Z.quot_div_nonneg (- n) (Z.pos d)) by lia.
  rewrite Z.quot_opp_l by lia. lia.
Qed.

Lemma trunc_comp (x y : Q) : x == y -> trunc x = trunc y.
Proof.
  intros E. destruct (Qlt_le_dec x 0) as [L | L].
  - rewrite !trunc_neg; try lra. now apply Qceiling_comp.
  - rewrite !trunc_nonneg; try lra. now apply Qfloor_comp.
Qed.

#[global] Instance trunc_Proper : Proper (Qeq ==> eq) trunc.
Proof. exact trunc_comp. Qed.

#[global] Instance rem_Proper : Proper (Qeq ==> Qeq ==> Qeq) rem.
Proof.
  intros x x' Ex y y' Ey. unfold rem.
  assert (Et : trunc (x / y) = trunc (x' / y')) by (apply trunc_comp; now rewrite Ex, Ey).
  rewrite Et, Ex, Ey. reflexivity.
Qed.

Lemma floor_unique (x : Q) (k : Z) :
  inject_Z k <= x -> x < inject_Z k + 1 -> Qfloor x = k.
Proof.
  intros L U.
  pose proof (Qfloor_le x) as A. pose proof (Qlt_floor x) as B.
  rewrite inject_Z_plus in B. change (inject_Z 1) with 1 in B.
  assert (H1 : inject_Z (Qfloor x) < inject_Z (k + 1))
    by (rewrite inject_Z_plus; change (inject_Z 1) with 1; lra).
  assert (H2 : inject_Z k < inject_Z (Qfloor x + 1))
    by (rewrite inject_Z_plus; change (inject_Z 1) with 1; lra).
  rewrite <- Zlt_Qlt in H1, H2. lia.
Qed.

Lemma rem_bounds (x y : Q) : 0 <= x -> 0 < y -> 0 <= rem x y /\ rem x y < y.
Proof.
  intros Hx Hy. unfold rem.
  assert (Hq : 0 <= x / y) by (apply Qle_shift_div_l; lra).
  rewrite (trunc_nonneg _ Hq).
  pose proof (Qfloor_le (x / y)) as A. pose proof (Qlt_floor (x / y)) as B.
  rewrite inject_Z_plus in B. change (inject_Z 1) with 1 in B.
  assert (E : x == (x / y) * y) by (field; lra).
  split.
  - assert (inject_Z (Qfloor (x / y)) * y <= (x / y) * y) by (apply Qmult_le_compat_r; lra). lra.
  - assert ((x / y) * y < (inject_Z (Qfloor (x / y)) + 1) * y) by (apply Qmult_lt_compat_r; lra). lra.
Qed.

Lemma rem_unique (x y r : Q) (k : Z) :
  0 < y -> 0 <= r -> r < y -> (0 <= k)%Z -> x == inject_Z k * y + r -> rem x y == r.
Proof.
  intros Hy Hr0 Hr1 Hk E. unfold rem.
  assert (Ik : 0 <= inject_Z k) by (change 0 with (inject_Z 0); now rewrite <- Zle_Qle).
  assert (Eq : x / y == inject_Z k + r / y) by (rewrite E; field; lra).
  assert (Hry0 : 0 <= r / y) by (apply Qle_shift_div_l; lra).
  assert (Hry1 : r / y < 1) by (apply Qlt_shift_div_r; lra).
  assert (Hq : 0 <= x / y) by lra.
  rewrite (trunc_nonneg _ Hq).
  rewrite (floor_unique (x / y) k) by lra.
  lra.
Qed.

(** ** Trimming *)

Lemma trimStart_nil (s : jsstring) :
  trimStart s = [] <-> forallb is_space s = true.
Proof.
  induction s as [| c r IH]; simpl.
  - tauto.
  - destruct (is_space c); simpl; [exact IH | split; discriminate].
Qed.

Lemma trimStart_head (s r : jsstring) (c : code_unit) :
  trimStart s = c :: r -> is_space c = false.
Proof.
  induction s as [| d t IH]; simpl; [discriminate|].
  destruct (is_space d) eqn:E; [exact IH|].
  intros H. injection H as <- _. exact E.
Qed.

(** [trim] returns the empty string exactly on the strings made of
    whitespace only (the empty string among them). *)
Lemma trim_blank (s : jsstring) :
  trim s = [] <-> forallb is_space s = true.
Proof.
  unfold trim. split.
  - intros H. apply trimStart_nil.
    destruct (trimStart s) as [| c r] eqn:E; [reflexivity|].
    apply (f_equal (@rev _)) in H. rewrite rev_involutive in H. simpl in H.
    apply trimStart_nil in H. rewrite forallb_forall in H.
    pose proof (trimStart_head _ _ _ E) as Hc.
    rewrite (H c) in Hc; [discriminate |].
    apply in_or_app. right. now left.
  - intros H. apply trimStart_nil in H. now rewrite H.
Qed.

Lemma trim_not_blank (s : jsstring) :
  forallb is_space s = false -> is_empty (trim s) = false.
Proof.
  intros H. destruct (trim s) eqn:E; [| reflexivity].
  apply trim_blank in E. congruence.
Qed.

(** ** Easing *)

Lemma Math_pow_3 (x : Q) : Math_pow x 3 == x * x * x.
Proof. unfold Math_pow. simpl. ring. Qed.

Lemma sq_nonneg (x : Q) : 0 <= x * x.
Proof. nra. Qed.

Lemma cube_le (a b : Q) : a <= b -> a * a * a <= b * b * b.
Proof.
  intros H.
  assert (E : b * b * b - a * a * a == (b - a) * ((a + b / 2) * (a + b / 2) + (3 # 4) * (b * b))) by field.
  pose proof (sq_nonneg (a + b / 2)).
  pose proof (sq_nonneg b).
  assert (0 <= (b - a) * ((a + b / 2) * (a + b / 2) + (3 # 4) * (b * b))).
  { apply Qmult_le_0_compat; lra. }
  lra.
Qed.

Lemma easeOutCubic_mono (t1 t2 : Q) : t1 <= t2 -> easeOutCubic t1 <= easeOutCubic t2.
Proof.
  intros H. unfold easeOutCubic. rewrite !Math_pow_3.
  assert (L := cube_le (1 - t2) (1 - t1)). lra.
Qed.

#[global] Instance easeOutCubic_Proper : Proper (Qeq ==> Qeq) easeOutCubic.
Proof. intros x y E. unfold easeOutCubic, Math_pow. now rewrite E. Qed.

(** ** The winner formula *)

#[global] Instance Math_floor_Proper : Proper (Qeq ==> eq) Math_floor.
Proof. intros x y E. unfold Math_floor. now rewrite (Qfloor_comp _ _ E). Qed.

#[global] Instance winnerIndex_Proper : Proper (Qeq ==> Qeq ==> eq) winnerIndex.
Proof.
  intros r r' Er n n' En. unfold winnerIndex.
  apply Math_floor_Proper. now rewrite Er, En.
Qed.

(** On a non-negative rotation the formula of line 200 yields a slice. *)
Lemma winnerIndex_range (rot : Q) (n : Z) :
  0 <= rot -> (1 <= n)%Z ->
  exists k : Z, winnerIndex rot (inject_Z n) = inject_Z k /\ (0 <= k < n)%Z.
Proof.
  intros Hr Hn. unfold winnerIndex, Math_floor.
  eexists; split; [reflexivity|].
  destruct (rem_bounds rot 360 Hr) as [A B]; [lra|].
  set (nr := rem rot 360) in *.
  assert (Hx : 0 <= 360 + 270 - nr) by lra.
  destruct (rem_bounds _ 360 Hx) as [C D]; [lra|].
  set (y := rem (360 + 270 - nr) 360) in *.
  assert (In : 1 <= inject_Z n) by (change 1 with (inject_Z 1); now rewrite <- Zle_Qle).
  assert (E : y / (360 / inject_Z n) == y * inject_Z n / 360) by (field; lra).
  assert (L : 0 <= y / (360 / inject_Z n)).
  { rewrite E. apply Qle_shift_div_l; [lra|]. nra. }
  assert (U : y / (360 / inject_Z n) < inject_Z n).
  { rewrite E. apply Qlt_shift_div_r; [lra|]. nra. }
  split.
  - change 0%Z with (Qfloor 0). now apply Qfloor_resp_le.
  - pose proof (Qfloor_le (y / (360 / inject_Z n))) as F.
    assert (G : inject_Z (Qfloor (y / (360 / inject_Z n))) < inject_Z n) by lra.
    now rewrite <- Zlt_Qlt in G.
Qed.

Lemma inject_Z_sub (a b : Z) : inject_Z (a - b) == inject_Z a - inject_Z b.
Proof. unfold Z.sub. rewrite inject_Z_plus, inject_Z_opp. reflexivity. Qed.

(** The end rotation built by [spin] for slice [i] of [N], from rotation 0,
    puts slice [N - 1 - i] under the pointer: [targetMidAngle] is added to
    the rotation, while the pointer formula subtracts the rotation. *)
Lemma winner_mirror (N i F : Z) :
  (1 <= N)%Z -> (0 <= i < N)%Z -> (1 <= F)%Z ->
  winnerIndex (0 + finalRotation (inject_Z F) (inject_Z i) (inject_Z N)) (inject_Z N)
  = inject_Z (N - 1 - i).
Proof.
  intros HN Hi HF.
  assert (IN : 1 <= inject_Z N) by (change 1 with (inject_Z 1); now rewrite <- Zle_Qle).
  assert (Ii0 : 0 <= inject_Z i) by (change 0 with (inject_Z 0); rewrite <- Zle_Qle; lia).
  assert (Ii1 : inject_Z i + 1 <= inject_Z N).
  { change 1 with (inject_Z 1). rewrite <- inject_Z_plus, <- Zle_Qle. lia. }
  assert (IF : 1 <= inject_Z F) by (change 1 with (inject_Z 1); now rewrite <- Zle_Qle).
  set (n := inject_Z N) in *. set (j := inject_Z i) in *. set (f := inject_Z F) in *.
  set (m := (j + (1 # 2)) * (360 / n)).
  assert (Em : m * n == 360 * j + 180) by (unfold m; field; lra).
  assert (Hm0 : 0 < m) by nra.
  assert (Hm1 : m < 360) by nra.
  assert (Ex : 0 + finalRotation f j n == f * 360 + (m - 90)).
  { unfold finalRotation, targetMidAngle, anglePer, m. field. lra. }
  assert (R2 : rem (360 + 270 - rem (0 + finalRotation f j n) 360) 360 == 360 - m).
  { destruct (Qlt_le_dec m 90) as [c | c].
    - assert (R1 : rem (0 + finalRotation f j n) 360 == m + 270).
      { apply (rem_unique _ _ _ (F - 1)); try lra; try lia.
        rewrite Ex, inject_Z_sub. fold f. change (inject_Z 1) with 1. ring. }
      rewrite R1. apply (rem_unique _ _ _ 0); try lra; try lia.
      change (inject_Z 0) with 0. ring.
    - assert (R1 : rem (0 + finalRotation f j n) 360 == m - 90).
      { apply (rem_unique _ _ _ F); try lra; try lia. rewrite Ex. fold f. ring. }
      rewrite R1. apply (rem_unique _ _ _ 1); try lra; try lia.
      change (inject_Z 1) with 1. ring. }
  unfold winnerIndex, Math_floor. f_equal.
  rewrite (Qfloor_comp _ _ (Qdiv_comp _ _ R2 _ _ (Qeq_refl _))).
  apply floor_unique.
  - rewrite !inject_Z_sub. fold n j. change (inject_Z 1) with 1.
    assert (E : (360 - m) / (360 / n) == n - j - (1 # 2)) by (unfold m; field; lra).
    rewrite E. lra.
  - rewrite !inject_Z_sub. fold n j. change (inject_Z 1) with 1.
    assert (E : (360 - m) / (360 / n) == n - j - (1 # 2)) by (unfold m; field; lra).
    rewrite E. lra.
Qed.

(** ** Bounds on what [spin] computes *)

Lemma rem_le (x y : Q) : 0 <= x -> 0 < y -> rem x y <= x.
Proof.
  intros Hx Hy. unfold rem.
  assert (Hq : 0 <= x / y) by (apply Qle_shift_div_l; lra).
  rewrite (trunc_nonneg _ Hq).
  assert (0 <= inject_Z (Qfloor (x / y))).
  { change 0 with (inject_Z (Qfloor 0)). rewrite <- Zle_Qle. now apply Qfloor_resp_le. }
  assert (0 <= inject_Z (Qfloor (x / y)) * y) by (apply Qmult_le_0_compat; lra).
  lra.
Qed.

Lemma Math_floor_nonneg (x : Q) : 0 <= x -> 0 <= Math_floor x.
Proof.
  intros H. unfold Math_floor. change 0 with (inject_Z (Qfloor 0)).
  rewrite <- Zle_Qle. now apply Qfloor_resp_le.
Qed.

Lemma length_pos {A} (l : list A) : l <> [] -> 1 <= JS.length l.
Proof.
  intros H. unfold JS.length. change 1 with (inject_Z 1). rewrite <- Zle_Qle.
  destruct l; [congruence | simpl; lia].
Qed.

Lemma finalRotation_pos (fullRot targetIndex segCount : Q) :
  4 <= fullRot -> 0 <= targetIndex -> 1 <= segCount ->
  1350 <= finalRotation fullRot targetIndex segCount.
Proof.
  intros Hf Ht Hs. unfold finalRotation, targetMidAngle, anglePer.
  assert (A : 0 < 360 / segCount) by (apply Qlt_shift_div_l; lra).
  assert (B : 0 <= targetIndex * (360 / segCount)) by (apply Qmult_le_0_compat; lra).
  assert (C : 0 <= 360 / segCount / 2) by (apply Qle_shift_div_l; lra).
  lra.
Qed.

(** ** The invariant holds in every reachable state *)

Lemma parseNames_entries (raw : jsstring) :
  Forall (fun n => n <> []) (parseNames raw).
Proof.
  unfold parseNames. apply Forall_forall. intros x Hx.
  apply filter_In in Hx. destruct Hx as [_ Hx].
  destruct x; [discriminate Hx | discriminate].
Qed.

Lemma defaultNames_entries : Forall (fun n => n <> []) defaultNames.
Proof. repeat constructor; discriminate. Qed.

Lemma invariant_initial (p : Page) : invariant (initial p).
Proof.
  constructor; simpl.
  - discriminate.
  - apply defaultNames_entries.
  - intros _. split; [lra | reflexivity].
  - discriminate.
  - discriminate.
Qed.

Lemma invariant_setInput (raw : jsstring) (s : State) :
  invariant s -> invariant (setInput raw s).
Proof. intros [A B C D E]. constructor; assumption. Qed.

Lemma invariant_updateClick (s : State) : invariant s -> invariant (updateClick s).
Proof.
  intros I. unfold updateClick.
  destruct (is_empty (trim (namesInput_value s))); [assumption|].
  destruct I as [A B C D E].
  constructor; simpl.
  - destruct (parseNames (trim (namesInput_value s))); discriminate.
  - pose proof (parseNames_entries (trim (namesInput_value s))) as P.
    destruct (parseNames (trim (namesInput_value s))); [apply defaultNames_entries | exact P].
  - intros H. destruct (C H) as [_ Hp]. split; [lra | exact Hp].
  - exact D.
  - exact E.
Qed.

Lemma spin_rejected (e : SpinEnv) (s : State) :
  spinning s = true \/ names s = [] -> spin e s = s.
Proof.
  intros [H | H]; unfold spin; rewrite H; simpl; [reflexivity|].
  now rewrite orb_true_r.
Qed.

Lemma spin_accepted (e : SpinEnv) (s : State) :
  spinning s = false -> names s <> [] ->
  spin e s =
    mkState (names s) (rotation s) true true true (namesInput_value s)
      (str "Spinning...") true (winSound_plays s) (canvas s)
      (Some (mkSession
               (Math_floor (random1 e * JS.length (names s)))
               (4200 + Math_floor (random3 e * 1200))
               (now0 e)
               (rem (rotation s) 360)
               (rotation s +
                finalRotation (4 + Math_floor (random2 e * 3))
                  (Math_floor (random1 e * JS.length (names s)))
                  (JS.length (names s))))).
Proof.
  intros Hs Hn. unfold spin. rewrite Hs.
  destruct (names s) eqn:En; [congruence | reflexivity].
Qed.

Lemma invariant_spin (e : SpinEnv) (s : State) :
  valid_env e -> invariant s -> invariant (spin e s).
Proof.
  intros (V1 & V2 & V3) I.
  destruct (spinning s) eqn:Hs.
  - rewrite spin_rejected by now left. exact I.
  - pose proof (inv_names s I) as Hn.
    rewrite (spin_accepted e s Hs Hn).
    destruct (inv_idle s I Hs) as [Hr _].
    pose proof (length_pos _ Hn) as HL.
    constructor; simpl.
    + exact Hn.
    + exact (inv_entries s I).
    + discriminate.
    + intros _. split; reflexivity.
    + intros ss Hss. injection Hss as <-. simpl.
      destruct V1 as [V1 _], V2 as [V2 _], V3 as [V3 _].
      assert (T : 0 <= Math_floor (random1 e * JS.length (names s))).
      { apply Math_floor_nonneg, Qmult_le_0_compat; lra. }
      assert (F : 0 <= Math_floor (random2 e * 3)).
      { apply Math_floor_nonneg, Qmult_le_0_compat; lra. }
      assert (D : 0 <= Math_floor (random3 e * 1200)).
      { apply Math_floor_nonneg, Qmult_le_0_compat; lra. }
      pose proof (finalRotation_pos (4 + Math_floor (random2 e * 3)) _ _
                    ltac:(lra) T HL) as P.
      destruct (rem_bounds (rotation s) 360 Hr ltac:(lra)) as [R0 _].
      pose proof (rem_le (rotation s) 360 Hr ltac:(lra)) as R1.
      repeat split; lra.
Qed.

Lemma ease_one : easeOutCubic 1 == 1.
Proof. reflexivity. Qed.

Lemma progress_le_1 (ss : SpinSession) (now : Q) : progress ss now <= 1.
Proof. unfold progress, Math_min. apply Q.le_min_l. Qed.

Lemma frameRotation_done (ss : SpinSession) (now : Q) :
  1 <= progress ss now -> frameRotation ss now == endRotation ss.
Proof.
  intros H. pose proof (progress_le_1 ss now) as L.
  assert (E : progress ss now == 1) by lra.
  unfold frameRotation. rewrite E, ease_one. ring.
Qed.

Lemma animate_running (ss : SpinSession) (now : Q) (s : State) :
  progress ss now < 1 ->
  animate ss now s =
    mkState (names s) (frameRotation ss now) (spinning s) (spinBtn_disabled s)
      (updateBtn_disabled s) (namesInput_value s) (resultText s)
      (spinSound_playing s) (winSound_plays s)
      (Some (frameRotation ss now, names s)) (Some ss).
Proof.
  intros H. unfold animate. destruct (Qlt_le_dec (progress ss now) 1); [reflexivity | lra].
Qed.

Lemma animate_done (ss : SpinSession) (now : Q) (s : State) :
  1 <= progress ss now ->
  animate ss now s =
    mkState (names s) (frameRotation ss now) false false false
      (namesInput_value s)
      (str "Winner: " ++
       winnerName (names s)
         (winnerIndex (frameRotation ss now) (JS.length (names s))))
      false (S (winSound_plays s))
      (Some (frameRotation ss now, names s)) None.
Proof.
  intros H. unfold animate. destruct (Qlt_le_dec (progress ss now) 1); [lra | reflexivity].
Qed.

Lemma invariant_animate (ss : SpinSession) (now : Q) (s : State) :
  invariant s -> pending s = Some ss -> invariant (animate ss now s).
Proof.
  intros I Hp. destruct (inv_session s I ss Hp) as (Hs & Hd & Hr0 & Hr1).
  destruct (Qlt_le_dec (progress ss now) 1) as [c | c].
  - rewrite (animate_running _ _ _ c). constructor; simpl.
    + exact (inv_names s I).
    + exact (inv_entries s I).
    + congruence.
    + exact (inv_buttons s I).
    + intros ss' E. injection E as <-. auto.
  - rewrite (animate_done _ _ _ c). constructor; simpl.
    + exact (inv_names s I).
    + exact (inv_entries s I).
    + intros _. split; [|reflexivity]. rewrite (frameRotation_done _ _ c). lra.
    + discriminate.
    + discriminate.
Qed.

Lemma invariant_step (ev : event) (s : State) :
  valid_event ev -> invariant s -> invariant (step ev s).
Proof.
  intros V I. destruct ev as [raw | | e | code e | now]; simpl in *.
  - now apply invariant_setInput.
  - destruct (updateBtn_disabled s); [exact I | now apply invariant_updateClick].
  - destruct (spinBtn_disabled s); [exact I | now apply invariant_spin].
  - unfold keydown. destruct (list_eq_dec _ _ _); [now apply invariant_spin | exact I].
  - destruct (pending s) as [ss|] eqn:Hp; [now apply invariant_animate | exact I].
Qed.

Lemma reachable_invariant (s : State) : reachable s -> invariant s.
Proof.
  induction 1 as [p | s ev _ IH V].
  - apply invariant_initial.
  - now apply invariant_step.
Qed.

Lemma reachable_run (evs : list event) (s : State) :
  reachable s -> Forall valid_event evs -> reachable (run evs s).
Proof.
  revert s. induction evs as [| ev evs IH]; intros s R V; simpl.
  - exact R.
  - inversion V; subst. apply IH; [now apply reach_step | assumption].
Defined.

(** ** Frames of one spin *)

Lemma progress_done (ss : SpinSession) (now : Q) :
  0 < duration ss -> duration ss <= now - start ss -> 1 <= progress ss now.
Proof.
  intros Hd H. unfold progress, Math_min. apply Q.min_glb; [lra|].
  apply Qle_shift_div_l; lra.
Qed.



Lemma floor_range (u : Q) (n : Z) :
  unit_interval u -> (0 < n)%Z -> (0 <= Qfloor (u * inject_Z n) < n)%Z.
Proof.
  intros [U0 U1] Hn.
  assert (In : 0 < inject_Z n) by (change 0 with (inject_Z 0); now rewrite <- Zlt_Qlt).
  split.
  - change 0%Z with (Qfloor 0). apply Qfloor_resp_le, Qmult_le_0_compat; lra.
  - pose proof (Qfloor_le (u * inject_Z n)) as F.
    assert (G : u * inject_Z n < inject_Z n) by nra.
    assert (K : inject_Z (Qfloor (u * inject_Z n)) < inject_Z n) by lra.
    now rewrite <- Zlt_Qlt in K.
Qed.

Lemma animate_rotation (ss : SpinSession) (now : Q) (s : State) :
  rotation (animate ss now s) = frameRotation ss now.
Proof.
  destruct (Qlt_le_dec (progress ss now) 1) as [c | c];
    [rewrite (animate_running _ _ _ c) | rewrite (animate_done _ _ _ c)];
    reflexivity.
Qed.

Lemma frameRotation_at_start (ss : SpinSession) (now : Q) :
  0 < duration ss -> now == start ss ->
  frameRotation ss now == startRotation ss.
Proof.
  intros Hd En.
  assert (Ep : progress ss now == 0).
  { unfold progress, Math_min.
    assert (Z : (now - start ss) / duration ss == 0) by (rewrite En; field; lra).
    rewrite Z. apply Q.min_r. lra. }
  assert (E0 : easeOutCubic 0 == 0) by reflexivity.
  unfold frameRotation. rewrite Ep, E0. ring.
Qed.

(** ** Looking the winner up *)

Lemma get_inject_Z {A} (l : list A) (k : Z) :
  (0 <= k)%Z -> get l (inject_Z k) = nth_error l (Z.to_nat k).
Proof.
  intros H. unfold get. rewrite Qfloor_Z.
  assert (E : Qeq_bool (inject_Z k) (inject_Z k) = true) by (apply Qeq_bool_iff; reflexivity).
  rewrite E. apply Z.leb_le in H. rewrite H. reflexivity.
Qed.

Lemma winnerName_in_range (l : list jsstring) (rot : Q) :
  l <> [] -> Forall (fun n => n <> []) l -> 0 <= rot ->
  exists (k : nat) (name : jsstring),
    winnerIndex rot (JS.length l) = inject_Z (Z.of_nat k) /\
    (k < List.length l)%nat /\
    nth_error l k = Some name /\ name <> [] /\
    get l (winnerIndex rot (JS.length l)) = Some name /\
    winnerName l (winnerIndex rot (JS.length l)) = name.
Proof.
  intros Hn He Hr.
  assert (HN : (1 <= Z.of_nat (List.length l))%Z) by (destruct l; [congruence | simpl; lia]).
  destruct (winnerIndex_range rot _ Hr HN) as (k & Ek & Hk).
  unfold JS.length. rewrite Ek.
  assert (Hlt : (Z.to_nat k < List.length l)%nat) by lia.
  destruct (nth_error l (Z.to_nat k)) as [name|] eqn:En;
    [| apply nth_error_None in En; lia].
  assert (Hne : name <> []).
  { apply nth_error_In in En. rewrite Forall_forall in He. now apply He. }
  exists (Z.to_nat k), name.
  rewrite Z2Nat.id by lia.
  repeat split; try assumption.
  - rewrite get_inject_Z by lia. exact En.
  - unfold winnerName. rewrite get_inject_Z by lia. rewrite En.
    destruct name; [congruence | reflexivity].
Qed.

#[global] Instance finalRotation_Proper :
  Proper (Qeq ==> Qeq ==> Qeq ==> Qeq) finalRotation.
Proof.
  intros f f' Ef t t' Et n n' En.
  unfold finalRotation, targetMidAngle, anglePer. now rewrite Ef, Et, En.
Qed.

(** ** The scenarios are reachable *)

Lemma valid_env0 (now : Q) : valid_env (env0 now).
Proof. repeat split; simpl; lra. Qed.

Lemma valid_envAB : valid_env envAB.
Proof. repeat split; simpl; lra. Qed.

Lemma reachable_stateAB : reachable stateAB.
Proof. apply reachable_run; [apply reach_initial | repeat constructor]. Qed.

Lemma reachable_secondSpinStarted : reachable secondSpinStarted.
Proof.
  apply reachable_run; [apply reach_initial |].
  repeat constructor; apply valid_env0.
Qed.

Lemma reachable_stateX_blank : reachable stateX_blank.
Proof. apply reachable_run; [apply reach_initial | repeat constructor]. Qed.

Lemma reachable_spinningWithInput : reachable spinningWithInput.
Proof.
  apply reachable_run; [apply reach_initial |].
  repeat constructor; apply valid_env0.
Qed.

Lemma targetIndex_range (u : Q) (l : list jsstring) :
  unit_interval u -> l <> [] ->
  (0 <= Qfloor (u * JS.length l) < Z.of_nat (List.length l))%Z.
Proof.
  intros [U0 U1] Hl. pose proof (length_pos l Hl) as HL. split.
  - change 0%Z with (Qfloor 0). apply Qfloor_resp_le, Qmult_le_0_compat; lra.
  - pose proof (Qfloor_le (u * JS.length l)) as F.
    assert (G : u * JS.length l < JS.length l) by nra.
    assert (K : inject_Z (Qfloor (u * JS.length l)) < JS.length l) by lra.
    unfold JS.length in K at 2. now rewrite <- Zlt_Qlt in K.
Qed.

(** * The claims

    C1.  What the code does where the specification asks for a round trip:
    for a reachable idle state at rotation 0 and any draws of
    [Math.random()], [spin] chooses a slice [i] in [0, N), and when the
    animation completes, the index that [finishSpin] computes from the
    final rotation is [N - 1 - i], the mirror image of the chosen slice,
    not [i] itself. *)
Theorem spin_lands_on_mirror_slice (s : State) (e : SpinEnv) (now : Q) :
  reachable s -> spinning s = false -> rotation s == 0 -> valid_env e ->
  exists (ss : SpinSession) (i : Z),
    pending (spin e s) = Some ss /\
    targetIndex ss = inject_Z i /\
    (0 <= i < Z.of_nat (List.length (names s)))%Z /\
    (duration ss <= now - start ss ->
     winnerIndex (rotation (step (AnimationFrame now) (spin e s)))
                 (JS.length (names s))
     = inject_Z (Z.of_nat (List.length (names s)) - 1 - i)).
Proof.
  intros R Hs Hr V.
  pose proof (reachable_invariant s R) as I.
  pose proof (inv_names s I) as Hn.
  pose proof (invariant_spin e s V I) as I'.
  destruct V as (V1 & V2 & V3).
  rewrite (spin_accepted e s Hs Hn) in *.
  set (ss := mkSession _ _ _ _ _) in *.
  exists ss, (Qfloor (random1 e * JS.length (names s))).
  split; [reflexivity|]. split; [reflexivity|].
  split; [now apply targetIndex_range|].
  intros Hd. simpl.
  destruct (inv_session _ I' ss eq_refl) as (_ & Hdur & _).
  pose proof (progress_done ss now Hdur Hd) as Hdone.
  rewrite (animate_done ss now _ Hdone). simpl.
  pose proof (targetIndex_range _ _ V1 Hn) as Hi.
  set (F := (4 + Qfloor (random2 e * 3))%Z).
  assert (HF : (1 <= F)%Z).
  { assert (0 <= Qfloor (random2 e * 3))%Z; [| unfold F; lia].
    change 0%Z with (Qfloor 0). destruct V2. apply Qfloor_resp_le, Qmult_le_0_compat; lra. }
  assert (E : frameRotation ss now ==
              0 + finalRotation (inject_Z F)
                    (inject_Z (Qfloor (random1 e * JS.length (names s))))
                    (inject_Z (Z.of_nat (List.length (names s))))).
  { rewrite (frameRotation_done _ _ Hdone). unfold ss. simpl. rewrite Hr.
    unfold F. rewrite inject_Z_plus. reflexivity. }
  unfold JS.length at 1.
  rewrite (winnerIndex_Proper _ _ E _ _ (Qeq_refl _)).
  apply winner_mirror; [lia | exact Hi | exact HF].
Qed.

Lemma spin_lands_on_mirror_slice_witness :
  exists (ss : SpinSession) (i : Z),
    pending (spin envAB stateAB) = Some ss /\
    targetIndex ss = inject_Z i /\
    (0 <= i < Z.of_nat (List.length (names stateAB)))%Z /\
    (duration ss <= 4200 - start ss ->
     winnerIndex (rotation (step (AnimationFrame 4200) (spin envAB stateAB)))
                 (JS.length (names stateAB))
     = inject_Z (Z.of_nat (List.length (names stateAB)) - 1 - i)).
Proof.
  apply (spin_lands_on_mirror_slice stateAB envAB 4200).
  - exact reachable_stateAB.
  - reflexivity.
  - reflexivity.
  - exact valid_envAB.
Defined.

(** C2.  The scenario with names A, B, target index 1 and four full turns,
    from rotation 0: the slice angle is 180, the target mid angle 180, the
    final rotation delta 1620, the end rotation 1620 and 1620 mod 360 is
    180, as the specification says; but the winner formula then yields
    index 0, and the page shows "Winner: A", not B. *)
Theorem scenario_AB_resolves_to_A :
  names stateAB = namesAB /\ rotation stateAB == 0 /\
  anglePer 2 == 180 /\
  targetMidAngle 1 2 == 180 /\
  finalRotation 4 1 2 == 1620 /\
  (exists ss, pending (spin envAB stateAB) = Some ss /\
              targetIndex ss == 1 /\ startRotation ss == 0 /\
              endRotation ss == 1620) /\
  rotation (run [ClickSpin envAB; AnimationFrame 4200] stateAB) == 1620 /\
  rem 1620 360 == 180 /\
  winnerIndex 1620 2 == 0 /\
  winnerName (names stateAB) (winnerIndex 1620 2) = str "A" /\
  resultText (run [ClickSpin envAB; AnimationFrame 4200] stateAB) = str "Winner: A".
Proof.
  repeat split; try reflexivity.
  eexists; repeat split; reflexivity.
Qed.

(** The round trip of the specification fails at N = 2, i = 1. *)
Lemma round_trip_fails : ~ round_trip_statement.
Proof.
  intros H. specialize (H 2%Z 1%Z 4%Z ltac:(lia) ltac:(lia) ltac:(lia)).
  vm_compute in H. discriminate H.
Qed.




(** C4, counterexample.  Run on a state whose [spinning] flag is set and
    whose text field holds B, the update handler replaces the names. *)
Lemma update_not_guarded : ~ update_guarded_statement.
Proof.
  intros H.
  destruct (H spinningWithInput reachable_spinningWithInput eq_refl) as [Hn _].
  vm_compute in Hn. discriminate Hn.
Qed.

(** C4, as the code has it.  The update handler never reads [spinning]:
    on a non-blank input it installs the parsed list (or the default
    list), sets the rotation to 0 and the result text to "Winner: —",
    whatever the flag.  What protects a running spin is the button: in
    every reachable state with [spinning] set the update button is
    disabled, and a click on it changes nothing. *)
Theorem update_relies_on_disabled_button :
  (forall s, forallb is_space (namesInput_value s) = false ->
     names (updateClick s) =
       match parseNames (trim (namesInput_value s)) with
       | [] => defaultNames
       | arr => arr
       end /\
     rotation (updateClick s) = 0 /\
     resultText (updateClick s) = str "Winner: " ++ dash /\
     spinning (updateClick s) = spinning s) /\
  (forall s, reachable s -> spinning s = true ->
     updateBtn_disabled s = true /\ step ClickUpdate s = s).
Proof.
  split.
  - intros s Hraw. unfold updateClick.
    rewrite (trim_not_blank _ Hraw). simpl.
    destruct (parseNames (trim (namesInput_value s))); repeat split; reflexivity.
  - intros s R Hs.
    destruct (inv_buttons s (reachable_invariant s R) Hs) as [_ Hb].
    split; [exact Hb | simpl; now rewrite Hb].
Qed.

Lemma update_relies_on_disabled_button_witness :
  names (updateClick spinningWithInput) = [str "B"] /\
  step ClickUpdate spinningWithInput = spinningWithInput.
Proof.
  destruct update_relies_on_disabled_button as [A B]. split.
  - refine (proj1 (A spinningWithInput _)). reflexivity.
  - exact (proj2 (B spinningWithInput reachable_spinningWithInput eq_refl)).
Defined.

(** C5, counterexample.  With the single name X on the wheel and three
    spaces in the text field, the update leaves the names as they are. *)
Lemma blank_update_keeps_names : ~ blank_update_statement.
Proof.
  intros H.
  specialize (H stateX_blank reachable_stateX_blank (or_introl eq_refl)).
  vm_compute in H. discriminate H.
Qed.

(** C5, as the code has it.  An input that is empty or all whitespace
    makes the update handler return at once, the whole state unchanged.
    An input that is not blank but parses to no entry (commas and
    whitespace only) installs exactly the default list, in its order. *)
Theorem blank_update_behaviour :
  (forall s, forallb is_space (namesInput_value s) = true ->
     updateClick s = s) /\
  (forall s, forallb is_space (namesInput_value s) = false ->
     parseNames (trim (namesInput_value s)) = [] ->
     names (updateClick s) = defaultNames) /\
  defaultNames =
    map str ["Alice"; "Bob"; "Charlie"; "Diana"; "Eve"; "Frank"; "Grace"; "Heidi"]%string.
Proof.
  split; [| split].
  - intros s E. apply trim_blank in E. unfold updateClick. now rewrite E.
  - intros s Hraw Hp. unfold updateClick.
    rewrite (trim_not_blank _ Hraw). simpl. now rewrite Hp.
  - reflexivity.
Qed.

Lemma blank_update_behaviour_witness :
  updateClick stateX_blank = stateX_blank /\
  names (updateClick (setInput (str " , ,") stateX_blank)) = defaultNames.
Proof.
  destruct blank_update_behaviour as (A & B & _). split.
  - apply A. reflexivity.
  - apply B; reflexivity.
Defined.

(** C6.  If [spinning] is already set, or the names list is empty, [spin]
    returns the state unchanged: flag, rotation, names and the pending
    animation callback are all as before. *)
Theorem spin_noop_when_rejected (e : SpinEnv) (s : State) :
  spinning s = true \/ names s = [] -> spin e s = s.
Proof. apply spin_rejected. Qed.

Lemma spin_noop_when_rejected_witness :
  spin (env0 7) spinningWithInput = spinningWithInput.
Proof. apply spin_noop_when_rejected. left. reflexivity. Defined.

(** C7.  The easing function is t |-> 1 - (1 - t)^3; it is 0 at 0 and 1 at
    1, non-decreasing on [0, 1], and maps [0, 1] into [0, 1]. *)
Theorem easeOutCubic_spec :
  (forall t, easeOutCubic t == 1 - (1 - t) * (1 - t) * (1 - t)) /\
  easeOutCubic 0 == 0 /\
  easeOutCubic 1 == 1 /\
  (forall t1 t2, 0 <= t1 -> t1 <= t2 -> t2 <= 1 ->
     easeOutCubic t1 <= easeOutCubic t2) /\
  (forall t, 0 <= t -> t <= 1 -> 0 <= easeOutCubic t /\ easeOutCubic t <= 1).
Proof.
  split; [| split; [| split; [| split]]].
  - intros t. unfold easeOutCubic. now rewrite Math_pow_3.
  - reflexivity.
  - reflexivity.
  - intros t1 t2 _ H _. now apply easeOutCubic_mono.
  - intros t H0 H1.
    pose proof (easeOutCubic_mono 0 t H0) as A.
    pose proof (easeOutCubic_mono t 1 H1) as B.
    assert (E0 : easeOutCubic 0 == 0) by reflexivity.
    rewrite ease_one in B. lra.
Qed.

Lemma easeOutCubic_spec_witness :
  easeOutCubic (1 # 4) <= easeOutCubic (1 # 2) /\
  0 <= easeOutCubic (1 # 2) /\ easeOutCubic (1 # 2) <= 1.
Proof.
  destruct easeOutCubic_spec as (_ & _ & _ & M & B). split.
  - apply M; lra.
  - apply B; lra.
Defined.

(** C8.  The names list starts as the eight default names; an update that
    is not cut short installs a parsed list with at least one entry or the
    default list; so the list is non-empty in every reachable state, and a
    spin request that changes nothing was rejected because [spinning] was
    set. *)
Theorem names_never_empty :
  (forall p, names (initial p) = defaultNames) /\
  List.length defaultNames = 8%nat /\
  (forall s, forallb is_space (namesInput_value s) = false ->
     (names (updateClick s) = parseNames (trim (namesInput_value s)) /\
      (1 <= List.length (parseNames (trim (namesInput_value s))))%nat)
     \/ names (updateClick s) = defaultNames) /\
  (forall s, reachable s -> names s <> []) /\
  (forall s e, reachable s -> spin e s = s -> spinning s = true).
Proof.
  split; [| split; [| split; [| split]]].
  - reflexivity.
  - reflexivity.
  - intros s Hraw. unfold updateClick.
    rewrite (trim_not_blank _ Hraw). simpl.
    destruct (parseNames (trim (namesInput_value s)));
      [now right | left; simpl; split; [reflexivity | lia]].
  - intros s R. exact (inv_names s (reachable_invariant s R)).
  - intros s e R H.
    destruct (spinning s) eqn:Hs; [reflexivity|].
    pose proof (inv_names s (reachable_invariant s R)) as Hn.
    rewrite (spin_accepted e s Hs Hn) in H.
    rewrite <- H in Hs. discriminate Hs.
Qed.

Lemma names_never_empty_witness :
  names stateAB <> [] /\ spinning spinningWithInput = true.
Proof.
  destruct names_never_empty as (_ & _ & _ & A & B). split.
  - apply A, reachable_stateAB.
  - apply (B spinningWithInput (env0 7) reachable_spinningWithInput). reflexivity.
Defined.

(** C9.  When the animation of a reachable state completes, the index
    computed by [finishSpin] is an integer in [0, names.length), the lookup
    [names[index]] finds a non-empty name, and that name is displayed: the
    dash fallback is not taken. *)
Theorem finishSpin_index_in_range (s : State) (ss : SpinSession) (now : Q) :
  reachable s -> pending s = Some ss -> duration ss <= now - start ss ->
  let s' := step (AnimationFrame now) s in
  exists (k : nat) (name : jsstring),
    spinning s' = false /\
    names s' = names s /\
    winnerIndex (rotation s') (JS.length (names s')) = inject_Z (Z.of_nat k) /\
    (k < List.length (names s'))%nat /\
    get (names s') (winnerIndex (rotation s') (JS.length (names s'))) = Some name /\
    name <> [] /\
    resultText s' = str "Winner: " ++ name.
Proof.
  intros R Hp Hd. simpl. rewrite Hp.
  pose proof (reachable_invariant s R) as I.
  destruct (inv_session s I ss Hp) as (Hs & Hdur & Hr0 & Hr1).
  pose proof (progress_done ss now Hdur Hd) as Hdone.
  rewrite (animate_done ss now s Hdone). simpl.
  assert (Hrot : 0 <= frameRotation ss now) by (rewrite (frameRotation_done _ _ Hdone); lra).
  destruct (winnerName_in_range (names s) _ (inv_names s I) (inv_entries s I) Hrot)
    as (k & name & E1 & E2 & E3 & E4 & E5 & E6).
  exists k, name. rewrite E6.
  repeat split; assumption.
Qed.

Lemma finishSpin_index_in_range_witness :
  exists (k : nat) (name : jsstring),
    spinning (step (AnimationFrame 4200) spinningWithInput) = false /\
    names (step (AnimationFrame 4200) spinningWithInput) = names spinningWithInput /\
    winnerIndex (rotation (step (AnimationFrame 4200) spinningWithInput))
      (JS.length (names (step (AnimationFrame 4200) spinningWithInput)))
    = inject_Z (Z.of_nat k) /\
    (k < List.length (names (step (AnimationFrame 4200) spinningWithInput)))%nat /\
    get (names (step (AnimationFrame 4200) spinningWithInput))
      (winnerIndex (rotation (step (AnimationFrame 4200) spinningWithInput))
         (JS.length (names (step (AnimationFrame 4200) spinningWithInput))))
    = Some name /\
    name <> [] /\
    resultText (step (AnimationFrame 4200) spinningWithInput) = str "Winner: " ++ name.
Proof.
  refine (finishSpin_index_in_range spinningWithInput _ 4200
            reachable_spinningWithInput eq_refl _).
  vm_compute. discriminate.
Defined.

(** C10.  [finishSpin] does not depend on its argument: two calls that
    differ in [winIndex] return the same state, and on states with the
    same names and equal rotations they compute the same index and show
    the same winner. *)
Theorem finishSpin_ignores_winIndex (w1 w2 : Q) :
  (forall s, finishSpin w1 s = finishSpin w2 s) /\
  (forall s1 s2, names s1 = names s2 -> rotation s1 == rotation s2 ->
     winnerIndex (rotation s1) (JS.length (names s1))
       = winnerIndex (rotation s2) (JS.length (names s2)) /\
     resultText (finishSpin w1 s1) = resultText (finishSpin w2 s2)).
Proof.
  split; [reflexivity|].
  intros s1 s2 Hn Hr. simpl. rewrite Hn.
  rewrite (winnerIndex_Proper _ _ Hr _ _ (Qeq_refl _)). split; reflexivity.
Qed.

Lemma finishSpin_ignores_winIndex_witness :
  resultText (finishSpin 0 stateAB) = resultText (finishSpin 1 (setInput [] stateAB)).
Proof.
  refine (proj2 (proj2 (finishSpin_ignores_winIndex 0 1) stateAB (setInput [] stateAB) _ _));
    reflexivity.
Defined.

(** * Beyond the claims: the rest of the script *)

(** ** The display invariant holds in every reachable state *)

Lemma duration_range (u : Q) :
  unit_interval u ->
  4200 <= 4200 + Math_floor (u * 1200) /\ 4200 + Math_floor (u * 1200) < 5400.
Proof.
  intros [U0 U1].
  assert (A : 0 <= Math_floor (u * 1200))
    by (apply Math_floor_nonneg, Qmult_le_0_compat; lra).
  pose proof (Qfloor_le (u * 1200)) as B. unfold Math_floor in *.
  split; lra.
Qed.

Lemma display_initial (p : Page) : display_invariant (initial p).
Proof. constructor; simpl; try reflexivity; discriminate. Qed.

Lemma display_updateClick (s : State) :
  display_invariant s -> display_invariant (updateClick s).
Proof.
  intros D. unfold updateClick.
  destruct (is_empty (trim (namesInput_value s))); [assumption|].
  destruct D as [A B C E]. constructor; simpl; auto.
Qed.

Lemma display_spin (e : SpinEnv) (s : State) :
  valid_env e -> names s <> [] -> display_invariant s ->
  display_invariant (spin e s).
Proof.
  intros (_ & _ & V3) Hn D.
  destruct (spinning s) eqn:Hs.
  - rewrite spin_rejected by now left. exact D.
  - rewrite (spin_accepted e s Hs Hn). destruct D as [A B C E].
    constructor; simpl.
    + exact A.
    + reflexivity.
    + discriminate.
    + intros ss Hss. injection Hss as <-. simpl. now apply duration_range.
Qed.

Lemma display_animate (ss : SpinSession) (now : Q) (s : State) :
  display_invariant s -> pending s = Some ss -> spinning s = true ->
  display_invariant (animate ss now s).
Proof.
  intros [A B C E] Hp Hs.
  destruct (Qlt_le_dec (progress ss now) 1) as [c | c].
  - rewrite (animate_running _ _ _ c). constructor; simpl.
    + reflexivity.
    + exact B.
    + discriminate.
    + intros ss' H. injection H as <-. auto.
  - rewrite (animate_done _ _ _ c). constructor; simpl.
    + reflexivity.
    + reflexivity.
    + discriminate.
    + discriminate.
Qed.

Lemma display_step (ev : event) (s : State) :
  valid_event ev -> invariant s -> display_invariant s ->
  display_invariant (step ev s).
Proof.
  intros V I D. destruct ev as [raw | | e | code e | now]; simpl in *.
  - destruct D as [A B C E]. constructor; assumption.
  - destruct (updateBtn_disabled s); [exact D | now apply display_updateClick].
  - destruct (spinBtn_disabled s); [exact D |].
    apply display_spin; auto. exact (inv_names s I).
  - unfold keydown. destruct (list_eq_dec _ _ _); [| exact D].
    apply display_spin; auto. exact (inv_names s I).
  - destruct (pending s) as [ss |] eqn:Hp; [| exact D].
    apply display_animate; auto.
    now destruct (inv_session s I ss Hp).
Qed.

Lemma reachable_display (s : State) : reachable s -> display_invariant s.
Proof.
  induction 1 as [p | s ev R IH V].
  - apply display_initial.
  - apply display_step; auto. now apply reachable_invariant.
Qed.

(** X1.  In every reachable state the last call of [drawWheel] drew the
    current rotation and the current names: every assignment to
    [rotation] or [names] outside [spin] is followed by a redraw. *)
Theorem canvas_shows_current_wheel (s : State) :
  reachable s -> canvas s = Some (rotation s, names s).
Proof. intros R. exact (di_canvas s (reachable_display s R)). Qed.

Lemma canvas_shows_current_wheel_witness :
  canvas secondSpinStarted = Some (rotation secondSpinStarted, names secondSpinStarted).
Proof. apply canvas_shows_current_wheel, reachable_secondSpinStarted. Defined.

(** X2.  In every reachable state an animation callback is registered
    exactly when [spinning] is set, the spin sound plays exactly when
    [spinning] is set, and while it is set both buttons are disabled. *)
Theorem spinning_iff_callback_and_sound (s : State) :
  reachable s ->
  (spinning s = true <-> pending s <> None) /\
  spinSound_playing s = spinning s /\
  (spinning s = true ->
   spinBtn_disabled s = true /\ updateBtn_disabled s = true).
Proof.
  intros R. pose proof (reachable_invariant s R) as I.
  pose proof (reachable_display s R) as D.
  split; [split |split].
  - exact (di_pending s D).
  - intros H. destruct (pending s) as [ss |] eqn:Hp; [| congruence].
    now destruct (inv_session s I ss Hp).
  - exact (di_sound s D).
  - exact (inv_buttons s I).
Qed.

Lemma spinning_iff_callback_and_sound_witness :
  (spinning spinningWithInput = true <-> pending spinningWithInput <> None) /\
  spinSound_playing spinningWithInput = spinning spinningWithInput /\
  (spinning spinningWithInput = true ->
   spinBtn_disabled spinningWithInput = true /\
   updateBtn_disabled spinningWithInput = true).
Proof. apply spinning_iff_callback_and_sound, reachable_spinningWithInput. Defined.

(** X3.  While a spin is in progress no click and no key press changes
    the state; typing only changes the text field.  Only animation frames
    move the wheel. *)
Theorem spin_in_progress_ignores_user (s : State) (ev : event) :
  reachable s -> spinning s = true ->
  match ev with
  | AnimationFrame _ => True
  | TypeNames raw => step ev s = setInput raw s
  | _ => step ev s = s
  end.
Proof.
  intros R Hs. pose proof (reachable_invariant s R) as I.
  destruct (inv_buttons s I Hs) as [Hb1 Hb2].
  destruct ev as [raw | | e | code e | now]; simpl; auto.
  - now rewrite Hb2.
  - now rewrite Hb1.
  - unfold keydown. destruct (list_eq_dec _ _ _); [| reflexivity].
    apply spin_rejected. now left.
Qed.

Lemma spin_in_progress_ignores_user_witness :
  step (KeyDown (str "Space") (env0 9)) spinningWithInput = spinningWithInput.
Proof.
  exact (spin_in_progress_ignores_user spinningWithInput (KeyDown (str "Space") (env0 9))
           reachable_spinningWithInput eq_refl).
Defined.

(** X4.  A spin ends at the first animation frame whose timestamp is at
    least 5400 ms after the start: the flag is cleared, no callback is
    left, both buttons are enabled, the spin sound is stopped and the win
    sound is played once.  A frame at most 4199 ms after the start never
    ends it. *)
Theorem spin_finishes_within_5400ms (s : State) (ss : SpinSession) (now : Q) :
  reachable s -> pending s = Some ss ->
  (start ss + 5400 <= now ->
   let s' := step (AnimationFrame now) s in
   spinning s' = false /\ pending s' = None /\
   spinBtn_disabled s' = false /\ updateBtn_disabled s' = false /\
   spinSound_playing s' = false /\
   winSound_plays s' = S (winSound_plays s)) /\
  (now <= start ss + 4199 ->
   let s' := step (AnimationFrame now) s in
   spinning s' = true /\ pending s' = Some ss /\
   resultText s' = resultText s /\ winSound_plays s' = winSound_plays s).
Proof.
  intros R Hp. pose proof (reachable_invariant s R) as I.
  pose proof (reachable_display s R) as D.
  destruct (inv_session s I ss Hp) as (Hs & Hd & _).
  destruct (di_duration s D ss Hp) as [D0 D1].
  split; intros H; simpl; rewrite Hp.
  - assert (Hdone : 1 <= progress ss now) by (apply progress_done; lra).
    rewrite (animate_done _ _ _ Hdone). simpl.
    repeat split.
  - assert (Hrun : progress ss now < 1).
    { unfold progress, Math_min.
      apply Qle_lt_trans with ((now - start ss) / duration ss); [apply Q.le_min_r |].
      apply Qlt_shift_div_r; lra. }
    rewrite (animate_running _ _ _ Hrun). simpl. repeat split. exact Hs.
Qed.

Lemma spin_finishes_within_5400ms_witness :
  spinning (step (AnimationFrame 5400) spinningWithInput) = false /\
  spinning (step (AnimationFrame 4000) spinningWithInput) = true.
Proof.
  destruct (spin_finishes_within_5400ms spinningWithInput _ 5400
              reachable_spinningWithInput eq_refl) as [A _].
  destruct (spin_finishes_within_5400ms spinningWithInput _ 4000
              reachable_spinningWithInput eq_refl) as [_ B].
  split.
  - apply A. vm_compute. discriminate.
  - apply B. vm_compute. discriminate.
Defined.

(** ** More on remainder and the winner formula *)

Lemma rem_neg_bounds (x y : Q) : x <= 0 -> 0 < y -> - y < rem x y /\ rem x y <= 0.
Proof.
  intros Hx Hy. unfold rem.
  assert (Hq : x / y <= 0).
  { apply Qle_shift_div_r; lra. }
  rewrite (trunc_neg _ Hq).
  pose proof (Qle_ceiling (x / y)) as A. pose proof (Qceiling_lt (x / y)) as B.
  rewrite inject_Z_sub in B. change (inject_Z 1) with 1 in B.
  assert (E : x == (x / y) * y) by (field; lra).
  split.
  - assert ((x / y) * y <= inject_Z (Qceiling (x / y)) * y)
      by (apply Qmult_le_compat_r; lra).
    assert ((inject_Z (Qceiling (x / y)) - 1) * y < (x / y) * y)
      by (apply Qmult_lt_compat_r; lra).
    lra.
  - assert ((x / y) * y <= inject_Z (Qceiling (x / y)) * y)
      by (apply Qmult_le_compat_r; lra).
    lra.
Qed.

Lemma rem_abs_bound (x y : Q) : 0 < y -> - y < rem x y /\ rem x y < y.
Proof.
  intros Hy. destruct (Qlt_le_dec x 0) as [c | c].
  - destruct (rem_neg_bounds x y) as [A B]; lra.
  - destruct (rem_bounds x y) as [A B]; lra.
Qed.

Lemma rem_congruent (x y : Q) : exists m : Z, rem x y == x - inject_Z m * y.
Proof. exists (trunc (x / y)). reflexivity. Qed.

(** With exact quotients the index of line 200 is the slice that contains
    the pointer angle, 270 degrees modulo full turns, in the wheel turned
    by [rot]. *)
Lemma winnerIndex_contains_pointer (rot : Q) (N : Z) :
  (1 <= N)%Z ->
  exists k m : Z,
    winnerIndex rot (inject_Z N) = inject_Z k /\
    (0 <= k < N)%Z /\
    inject_Z k * (360 / inject_Z N) + rot <= 270 + inject_Z m * 360 /\
    270 + inject_Z m * 360 < (inject_Z k + 1) * (360 / inject_Z N) + rot.
Proof.
  intros HN.
  assert (In : 1 <= inject_Z N) by (change 1 with (inject_Z 1); now rewrite <- Zle_Qle).
  set (n := inject_Z N) in *.
  destruct (rem_abs_bound rot 360 ltac:(lra)) as [A B].
  destruct (rem_congruent rot 360) as [m1 E1].
  destruct (rem_bounds (360 + 270 - rem rot 360) 360 ltac:(lra) ltac:(lra)) as [C D].
  destruct (rem_congruent (360 + 270 - rem rot 360) 360) as [m2 E2].
  set (y := rem (360 + 270 - rem rot 360) 360) in *.
  assert (Ha : 0 < 360 / n) by (apply Qlt_shift_div_l; lra).
  assert (Ey : y / (360 / n) * (360 / n) == y) by (field; lra).
  pose proof (Qfloor_le (y / (360 / n))) as F1.
  pose proof (Qlt_floor (y / (360 / n))) as F2.
  rewrite inject_Z_plus in F2. change (inject_Z 1) with 1 in F2.
  set (k := Qfloor (y / (360 / n))) in *.
  assert (G1 : inject_Z k * (360 / n) <= y).
  { rewrite <- Ey. apply Qmult_le_compat_r; lra. }
  assert (G2 : y < (inject_Z k + 1) * (360 / n)).
  { rewrite <- Ey at 1. apply Qmult_lt_compat_r; lra. }
  assert (En : n * (360 / n) == 360) by (field; lra).
  exists k, (m1 - m2 + 1)%Z.
  split; [reflexivity |]. split.
  - split.
    + change 0%Z with (Qfloor 0). apply Qfloor_resp_le. apply Qle_shift_div_l; lra.
    + assert (K : inject_Z k * (360 / n) < n * (360 / n)) by lra.
      assert (K' : inject_Z k < n).
      { destruct (Qlt_le_dec (inject_Z k) n) as [c | c]; [exact c |].
        assert (n * (360 / n) <= inject_Z k * (360 / n))
          by (apply Qmult_le_compat_r; lra). lra. }
      unfold n in K'. now rewrite <- Zlt_Qlt in K'.
  - rewrite inject_Z_plus, inject_Z_sub. change (inject_Z 1) with 1. split; lra.
Qed.

(** X7.  The index of line 200 is the slice under the pointer, for every
    rotation, negative ones included: if 270 degrees, up to a whole number
    of turns, lies inside slice [k] of the wheel turned by the rotation,
    at least a millionth of a degree away from both of its edges, then
    the index is [k]. *)
Theorem winner_is_slice_under_pointer (rot : Q) (N k m : Z) :
  (1 <= N)%Z -> (0 <= k < N)%Z ->
  inject_Z k * (360 / inject_Z N) + rot + (1 # 1000000)
    <= 270 + inject_Z m * 360 ->
  270 + inject_Z m * 360 + (1 # 1000000)
    <= (inject_Z k + 1) * (360 / inject_Z N) + rot ->
  winnerIndex rot (inject_Z N) = inject_Z k.
Proof.
  intros HN Hk L U.
  destruct (winnerIndex_contains_pointer rot N HN) as (k' & m' & E & Hk' & L' & U').
  rewrite E. f_equal.
  assert (In : 1 <= inject_Z N) by (change 1 with (inject_Z 1); now rewrite <- Zle_Qle).
  assert (Ha : 0 < 360 / inject_Z N) by (apply Qlt_shift_div_l; lra).
  assert (En : inject_Z N * (360 / inject_Z N) == 360) by (field; lra).
  set (a := 360 / inject_Z N) in *.
  assert (B1 : inject_Z k + 1 <= inject_Z N).
  { change 1 with (inject_Z 1). rewrite <- inject_Z_plus, <- Zle_Qle. lia. }
  assert (B2 : inject_Z k' + 1 <= inject_Z N).
  { change 1 with (inject_Z 1). rewrite <- inject_Z_plus, <- Zle_Qle. lia. }
  assert (B3 : 0 <= inject_Z k) by (change 0 with (inject_Z 0); rewrite <- Zle_Qle; lia).
  assert (B4 : 0 <= inject_Z k') by (change 0 with (inject_Z 0); rewrite <- Zle_Qle; lia).
  assert (P1 : (inject_Z k + 1) * a <= inject_Z N * a) by (apply Qmult_le_compat_r; lra).
  assert (P2 : (inject_Z k' + 1) * a <= inject_Z N * a) by (apply Qmult_le_compat_r; lra).
  assert (P3 : 0 <= inject_Z k * a) by (apply Qmult_le_0_compat; lra).
  assert (P4 : 0 <= inject_Z k' * a) by (apply Qmult_le_0_compat; lra).
  assert (M : m = m').
  { assert (M1 : inject_Z m < inject_Z m' + 1) by lra.
    assert (M2 : inject_Z m' < inject_Z m + 1) by lra.
    change 1 with (inject_Z 1) in M1, M2.
    rewrite <- inject_Z_plus, <- Zlt_Qlt in M1, M2. lia. }
  subst m'.
  assert (K1 : inject_Z k * a < (inject_Z k' + 1) * a) by lra.
  assert (K2 : inject_Z k' * a < (inject_Z k + 1) * a) by lra.
  assert (K3 : inject_Z k < inject_Z k' + 1).
  { destruct (Qlt_le_dec (inject_Z k) (inject_Z k' + 1)) as [c | c]; [exact c |].
    assert ((inject_Z k' + 1) * a <= inject_Z k * a)
      by (apply Qmult_le_compat_r; lra). lra. }
  assert (K4 : inject_Z k' < inject_Z k + 1).
  { destruct (Qlt_le_dec (inject_Z k') (inject_Z k + 1)) as [c | c]; [exact c |].
    assert ((inject_Z k + 1) * a <= inject_Z k' * a)
      by (apply Qmult_le_compat_r; lra). lra. }
  change 1 with (inject_Z 1) in K3, K4.
  rewrite <- inject_Z_plus, <- Zlt_Qlt in K3, K4. lia.
Qed.

Lemma winner_is_slice_under_pointer_witness :
  winnerIndex 1620 (inject_Z 2) = inject_Z 0.
Proof.
  apply (winner_is_slice_under_pointer 1620 2 0 4); try lia;
    vm_compute; discriminate.
Defined.

(** ** More on one spin *)

Lemma finalRotation_upper (F i N : Z) :
  (1 <= N)%Z -> (0 <= i < N)%Z -> (F <= 6)%Z ->
  finalRotation (inject_Z F) (inject_Z i) (inject_Z N) < 2430.
Proof.
  intros HN Hi HF.
  assert (IN : 1 <= inject_Z N) by (change 1 with (inject_Z 1); now rewrite <- Zle_Qle).
  assert (Ii1 : inject_Z i + 1 <= inject_Z N).
  { change 1 with (inject_Z 1). rewrite <- inject_Z_plus, <- Zle_Qle. lia. }
  assert (IF : inject_Z F <= 6) by (change 6 with (inject_Z 6); now rewrite <- Zle_Qle).
  set (n := inject_Z N) in *. set (j := inject_Z i) in *. set (f := inject_Z F) in *.
  unfold finalRotation, targetMidAngle, anglePer.
  set (m := (j + (1 # 2)) * (360 / n)).
  assert (Em : m * n == 360 * j + 180) by (unfold m; field; lra).
  assert (Hm1 : m < 360) by nra.
  assert (E : f * 360 + (j * (360 / n) + 360 / n / 2 - 90) == f * 360 + m - 90)
    by (unfold m; field; lra).
  rewrite E. lra.
Qed.

(** X5.  An accepted spin chooses an integer slice index in [0, N), an
    integer number of full turns from 4 to 6 and an integer duration from
    4200 to 5399 ms; the wheel will travel less than 2430 degrees, and the
    animation starts from an angle in [0, 360). *)
Theorem spin_session_ranges (s : State) (e : SpinEnv) :
  reachable s -> spinning s = false -> valid_env e ->
  exists (ss : SpinSession) (i F d : Z),
    pending (spin e s) = Some ss /\
    targetIndex ss = inject_Z i /\
    (0 <= i < Z.of_nat (List.length (names s)))%Z /\
    (4 <= F <= 6)%Z /\
    endRotation ss ==
      rotation s + finalRotation (inject_Z F) (inject_Z i) (JS.length (names s)) /\
    endRotation ss < rotation s + 2430 /\
    duration ss == inject_Z d /\ (4200 <= d <= 5399)%Z /\
    start ss = now0 e /\
    0 <= startRotation ss /\ startRotation ss < 360.
Proof.
  intros R Hs (V1 & V2 & V3).
  pose proof (reachable_invariant s R) as I.
  pose proof (inv_names s I) as Hn.
  destruct (inv_idle s I Hs) as [Hr _].
  rewrite (spin_accepted e s Hs Hn).
  set (ss := mkSession _ _ _ _ _).
  pose proof (targetIndex_range _ _ V1 Hn) as Hi.
  pose proof (floor_range (random2 e) 3 V2 ltac:(lia)) as HF.
  pose proof (floor_range (random3 e) 1200 V3 ltac:(lia)) as HD.
  change (inject_Z 3) with 3 in HF. change (inject_Z 1200) with 1200 in HD.
  exists ss, (Qfloor (random1 e * JS.length (names s))),
    (4 + Qfloor (random2 e * 3))%Z, (4200 + Qfloor (random3 e * 1200))%Z.
  assert (E : endRotation ss ==
              rotation s +
              finalRotation (inject_Z (4 + Qfloor (random2 e * 3)))
                (inject_Z (Qfloor (random1 e * JS.length (names s))))
                (JS.length (names s))).
  { unfold ss. cbn [endRotation]. rewrite inject_Z_plus. reflexivity. }
  repeat split; try lia; try exact E.
  - rewrite E.
    pose proof (finalRotation_upper (4 + Qfloor (random2 e * 3))
                  (Qfloor (random1 e * JS.length (names s)))
                  (Z.of_nat (List.length (names s))) ltac:(lia) Hi ltac:(lia)) as U.
    unfold JS.length at 2. lra.
  - unfold ss. cbn [duration]. rewrite inject_Z_plus. reflexivity.
  - unfold ss. simpl. apply rem_bounds; lra.
  - unfold ss. simpl. apply rem_bounds; lra.
Qed.

Lemma spin_session_ranges_witness :
  exists (ss : SpinSession) (i F d : Z),
    pending (spin envAB stateAB) = Some ss /\
    targetIndex ss = inject_Z i /\
    (0 <= i < Z.of_nat (List.length (names stateAB)))%Z /\
    (4 <= F <= 6)%Z /\
    endRotation ss ==
      rotation stateAB +
      finalRotation (inject_Z F) (inject_Z i) (JS.length (names stateAB)) /\
    endRotation ss < rotation stateAB + 2430 /\
    duration ss == inject_Z d /\ (4200 <= d <= 5399)%Z /\
    start ss = now0 envAB /\
    0 <= startRotation ss /\ startRotation ss < 360.
Proof.
  apply spin_session_ranges; [exact reachable_stateAB | reflexivity | exact valid_envAB].
Defined.

(** X6.  A frame whose timestamp is not before the start of the spin
    never puts the rotation below the start rotation, which is itself not
    negative; a frame at the very start puts it at the start rotation. *)
Theorem frame_rotation_not_below_start (s : State) (ss : SpinSession) (now : Q) :
  reachable s -> pending s = Some ss -> start ss <= now ->
  let s' := step (AnimationFrame now) s in
  0 <= startRotation ss /\
  startRotation ss <= rotation s' /\
  (now == start ss -> rotation s' == startRotation ss).
Proof.
  intros R Hp Hnow. simpl. rewrite Hp, animate_rotation.
  pose proof (reachable_invariant s R) as I.
  destruct (inv_session s I ss Hp) as (_ & Hd & Hr0 & Hr1).
  assert (P0 : 0 <= progress ss now).
  { unfold progress, Math_min. apply Q.min_glb; [lra |].
    apply Qle_shift_div_l; lra. }
  pose proof (easeOutCubic_mono _ _ P0) as M0.
  assert (E0 : easeOutCubic 0 == 0) by reflexivity.
  split; [exact Hr0 |]. split.
  - unfold frameRotation.
    assert (A : 0 <= (endRotation ss - startRotation ss)
                     * easeOutCubic (progress ss now))
      by (apply Qmult_le_0_compat; lra).
    lra.
  - now apply frameRotation_at_start.
Qed.

Lemma frame_rotation_not_below_start_witness :
  let s' := step (AnimationFrame 1000) spinningWithInput in
  exists ss, pending spinningWithInput = Some ss /\
    0 <= startRotation ss /\ startRotation ss <= rotation s'.
Proof.
  eexists. split; [reflexivity |].
  destruct (frame_rotation_not_below_start spinningWithInput _ 1000
              reachable_spinningWithInput eq_refl) as (A & B & _).
  - vm_compute. discriminate.
  - split; assumption.
Defined.

(** ** Splitting and joining *)

Lemma split_never_nil (sep : code_unit) (s : jsstring) : split sep s <> [].
Proof.
  destruct s as [| c r]; simpl; [discriminate |].
  destruct (c =? sep)%N; [discriminate |].
  destruct (split sep r); discriminate.
Qed.

Lemma join_cons (sep x : jsstring) (l : list jsstring) :
  l <> [] -> join sep (x :: l) = x ++ sep ++ join sep l.
Proof. destruct l; [congruence | reflexivity]. Qed.

Lemma split_pieces (sep : code_unit) (s : jsstring) :
  Forall (fun p => forallb (fun c => negb (c =? sep)%N) p = true) (split sep s).
Proof.
  induction s as [| c r IH]; simpl.
  - repeat constructor.
  - destruct (c =? sep)%N eqn:E.
    + constructor; [reflexivity | exact IH].
    + destruct (split sep r) as [| h t].
      * repeat constructor. simpl. now rewrite E.
      * inversion IH; subst. constructor; [simpl; rewrite E; simpl | ]; assumption.
Qed.

Lemma split_app (sep : code_unit) (x r : jsstring) :
  forallb (fun c => negb (c =? sep)%N) x = true ->
  split sep (x ++ sep :: r) = x :: split sep r.
Proof.
  induction x as [| c x IH]; simpl; intros H.
  - now rewrite N.eqb_refl.
  - apply andb_true_iff in H. destruct H as [Hc Hx].
    apply negb_true_iff in Hc. rewrite Hc, (IH Hx). reflexivity.
Qed.

Lemma split_whole (sep : code_unit) (x : jsstring) :
  forallb (fun c => negb (c =? sep)%N) x = true -> split sep x = [x].
Proof.
  induction x as [| c x IH]; simpl; intros H; [reflexivity |].
  apply andb_true_iff in H. destruct H as [Hc Hx].
  apply negb_true_iff in Hc. rewrite Hc, (IH Hx). reflexivity.
Qed.

(** Joining the pieces of a split gives the string back; there is one
    piece more than there are separators. *)
Lemma join_split (sep : code_unit) (s : jsstring) :
  join [sep] (split sep s) = s /\
  List.length (split sep s) = S (count_occ N.eq_dec s sep).
Proof.
  induction s as [| c r [IH1 IH2]]; simpl; [split; reflexivity |].
  destruct (N.eqb_spec c sep) as [-> | Hne].
  - rewrite join_cons by apply split_never_nil. simpl. rewrite IH1, IH2.
    destruct (N.eq_dec sep sep); [split; reflexivity | congruence].
  - destruct (N.eq_dec c sep) as [E | _]; [congruence |].
    destruct (split sep r) as [| h t] eqn:E; [now apply split_never_nil in E |].
    split; [| exact IH2].
    destruct t as [| h' t'].
    + simpl in *. now rewrite IH1.
    + rewrite join_cons by discriminate. rewrite join_cons in IH1 by discriminate.
      rewrite <- IH1. reflexivity.
Qed.

(** ** Trimming, continued *)

Lemma hd_rev (s : jsstring) (d : code_unit) : hd d (rev s) = last s d.
Proof.
  induction s as [| c r IH] using rev_ind; [reflexivity |].
  rewrite rev_app_distr, last_last. reflexivity.
Qed.

Lemma last_rev (s : jsstring) (d : code_unit) : last (rev s) d = hd d s.
Proof. rewrite <- hd_rev, rev_involutive. reflexivity. Qed.

Lemma trimStart_hd (s : jsstring) : is_space (hd 0%N (trimStart s)) = false.
Proof.
  destruct (trimStart s) as [| c r] eqn:E; [reflexivity |].
  exact (trimStart_head _ _ _ E).
Qed.

Lemma trimStart_id (s : jsstring) :
  is_space (hd 0%N s) = false -> trimStart s = s.
Proof. destruct s as [| c r]; simpl; [reflexivity |]. now intros ->. Qed.

Lemma trimStart_last (s : jsstring) (d : code_unit) :
  trimStart s = [] \/ last (trimStart s) d = last s d.
Proof.
  induction s as [| c r IH]; [now left |].
  simpl trimStart. destruct (is_space c); [| now right].
  destruct IH as [IH | IH]; [now left |].
  destruct r as [| e r']; [now left | right]. rewrite IH. reflexivity.
Qed.

Lemma trimStart_incl (s : jsstring) (c : code_unit) :
  In c (trimStart s) -> In c s.
Proof.
  induction s as [| d r IH]; simpl; [tauto |].
  destruct (is_space d); [auto | simpl; tauto].
Qed.

Lemma trim_incl (s : jsstring) (c : code_unit) : In c (trim s) -> In c s.
Proof.
  unfold trim. intros H. rewrite <- in_rev in H.
  apply trimStart_incl in H. rewrite <- in_rev in H. now apply trimStart_incl.
Qed.

Lemma trim_ends (s : jsstring) :
  is_space (hd 0%N (trim s)) = false /\ is_space (last (trim s) 0%N) = false.
Proof.
  unfold trim. split.
  - rewrite hd_rev.
    destruct (trimStart_last (rev (trimStart s)) 0%N) as [E | E].
    + rewrite E. reflexivity.
    + rewrite E, last_rev. apply trimStart_hd.
  - rewrite last_rev. apply trimStart_hd.
Qed.

Lemma trim_id (s : jsstring) :
  is_space (hd 0%N s) = false -> is_space (last s 0%N) = false -> trim s = s.
Proof.
  intros H1 H2. unfold trim. rewrite (trimStart_id s H1).
  rewrite trimStart_id by now rewrite hd_rev.
  apply rev_involutive.
Qed.

(** ** Clean names *)

Lemma clean_spec (n : jsstring) :
  clean n = true <->
  n <> [] /\ is_space (hd 0%N n) = false /\ is_space (last n 0%N) = false /\
  forallb (fun c => negb (c =? comma)%N) n = true.
Proof.
  unfold clean. rewrite !andb_true_iff, !negb_true_iff.
  destruct n; simpl; intuition congruence.
Qed.

(** X9.  Every entry the update handler parses out of the text field is
    non-empty, has no whitespace at either end and holds no comma, and
    there is at most one entry more than there are commas. *)
Theorem parseNames_entries_clean (raw : jsstring) :
  forallb clean (parseNames raw) = true /\
  (List.length (parseNames raw) <= S (count_occ N.eq_dec raw comma))%nat.
Proof.
  split.
  - apply forallb_forall. intros x Hx. unfold parseNames in Hx.
    apply filter_In in Hx. destruct Hx as [Hx Hne].
    apply in_map_iff in Hx. destruct Hx as (p & <- & Hp).
    apply clean_spec. destruct (trim_ends p) as [E1 E2].
    repeat split; try assumption.
    + destruct (trim p); [discriminate Hne | discriminate].
    + pose proof (split_pieces comma raw) as F. rewrite Forall_forall in F.
      specialize (F p Hp). rewrite forallb_forall in F.
      apply forallb_forall. intros c Hc. apply F. now apply trim_incl.
  - unfold parseNames.
    rewrite <- (proj2 (join_split comma raw)).
    rewrite <- (length_map trim (split comma raw)).
    apply filter_length_le.
Qed.

Lemma join_clean_ends (l : list jsstring) :
  l <> [] -> forallb clean l = true ->
  join (str ", ") l <> [] /\
  is_space (hd 0%N (join (str ", ") l)) = false /\
  is_space (last (join (str ", ") l) 0%N) = false.
Proof.
  induction l as [| n l IH]; [congruence |]. intros _ H.
  simpl in H. apply andb_true_iff in H. destruct H as [Hn Hl].
  apply clean_spec in Hn. destruct Hn as (N0 & N1 & N2 & _).
  destruct l as [| m r].
  - simpl. auto.
  - destruct (IH ltac:(discriminate) Hl) as (J0 & J1 & J2).
    rewrite join_cons by discriminate.
    set (J := join (str ", ") (m :: r)) in *.
    repeat split.
    + destruct n; [congruence | discriminate].
    + destruct n; [congruence | exact N1].
    + rewrite !app_assoc.
      rewrite (app_removelast_last 0%N J0), app_assoc, last_last. exact J2.
Qed.

Lemma split_leading_space (s : jsstring) :
  map trim (split comma (32%N :: s)) = map trim (split comma s).
Proof.
  simpl split. change (32 =? comma)%N with false.
  destruct (split comma s) as [| h t] eqn:E; [now apply split_never_nil in E |].
  reflexivity.
Qed.

Lemma split_join_clean (l : list jsstring) :
  l <> [] -> forallb clean l = true ->
  map trim (split comma (join (str ", ") l)) = l.
Proof.
  induction l as [| n l IH]; [congruence |]. intros _ H.
  simpl in H. apply andb_true_iff in H. destruct H as [Hn Hl].
  apply clean_spec in Hn. destruct Hn as (N0 & N1 & N2 & N3).
  destruct l as [| m r].
  - simpl. rewrite (split_whole _ _ N3). simpl. now rewrite trim_id.
  - rewrite join_cons by discriminate.
    change (str ", ") with [comma; 32%N] at 1.
    change ([comma; 32%N] ++ join (str ", ") (m :: r))
      with (comma :: 32%N :: join (str ", ") (m :: r)).
    rewrite (split_app _ _ _ N3). simpl map. rewrite (trim_id n N1 N2).
    f_equal. rewrite <- (IH ltac:(discriminate) Hl).
    apply split_leading_space.
Qed.

(** X10.  Writing a list of clean names into the text field the way line
    28 does and parsing it back the way the update handler does gives the
    same list; so an update on an untouched field keeps the names, and a
    click on Update right after loading leaves the default names. *)
Theorem names_field_round_trip :
  (forall l, l <> [] -> forallb clean l = true ->
     parseNames (trim (join (str ", ") l)) = l) /\
  (forall s, names s <> [] -> forallb clean (names s) = true ->
     namesInput_value s = join (str ", ") (names s) ->
     names (updateClick s) = names s) /\
  (forall p, names (step ClickUpdate (initial p)) = defaultNames).
Proof.
  assert (A : forall l, l <> [] -> forallb clean l = true ->
     trim (join (str ", ") l) = join (str ", ") l /\
     parseNames (trim (join (str ", ") l)) = l).
  { intros l Hl Hc. destruct (join_clean_ends l Hl Hc) as (J0 & J1 & J2).
    rewrite (trim_id _ J1 J2). split; [reflexivity |].
    unfold parseNames. rewrite (split_join_clean l Hl Hc).
    apply forallb_filter_id. apply forallb_forall. intros x Hx.
    rewrite forallb_forall in Hc. specialize (Hc x Hx).
    apply clean_spec in Hc. destruct x; [now destruct Hc | reflexivity]. }
  split; [intros l Hl Hc; now apply A | split].
  - intros s Hn Hc Hv. unfold updateClick. rewrite Hv.
    destruct (A (names s) Hn Hc) as [E1 E2]. rewrite E2.
    destruct (join_clean_ends _ Hn Hc) as (J0 & _). rewrite E1.
    destruct (join (str ", ") (names s)); [congruence |].
    simpl. destruct (names s); [congruence | reflexivity].
  - intros p. simpl. destruct (page_updateBtn_disabled p); reflexivity.
Qed.

Lemma names_field_round_trip_witness :
  parseNames (trim (join (str ", ") namesAB)) = namesAB.
Proof.
  apply (proj1 names_field_round_trip); [discriminate | reflexivity].
Defined.

(** ** Wrapping a label *)

Lemma trim_trailing_space (t : jsstring) : trim (t ++ [Render.space]) = trim t.
Proof.
  unfold trim.
  assert (E : trimStart (rev (trimStart (t ++ [Render.space])))
              = trimStart (rev (trimStart t))); [| now rewrite E].
  induction t as [| c r IH]; [reflexivity |].
  simpl. destruct (is_space c); [exact IH |].
  change (c :: r ++ [Render.space]) with ((c :: r) ++ [Render.space]).
  rewrite rev_app_distr. reflexivity.
Qed.

Lemma concat_words (sep : code_unit) (l : list jsstring) :
  l <> [] -> List.concat (map (fun w => w ++ [sep]) l) = join [sep] l ++ [sep].
Proof.
  induction l as [| w l IH]; [congruence |]. intros _.
  destruct l as [| v r]; [simpl; now rewrite app_nil_r |].
  rewrite join_cons by discriminate.
  change (List.concat (map (fun w => w ++ [sep]) (w :: v :: r)))
    with ((w ++ [sep]) ++ List.concat (map (fun w => w ++ [sep]) (v :: r))).
  rewrite IH by discriminate. now rewrite <- !app_assoc.
Qed.

Section Wrap.

Variable measureText : jsstring -> Q.
Variables x maxWidth lineHeight : Q.

Let wrap := Render.wrapLines measureText x maxWidth lineHeight.

(** Where the lines go: the k-th one at [lineY + k * lineHeight]. *)
Lemma wrapLines_positions (words : list jsstring) :
  forall (n : nat) (line : jsstring) (lineY : Q) (k : nat) (c : Render.command),
    nth_error (wrap words n line lineY) k = Some c ->
    exists (l : jsstring) (yk : Q),
      c = Render.FillText l x yk /\
      yk == lineY + inject_Z (Z.of_nat k) * lineHeight.
Proof.
  unfold wrap.
  induction words as [| w rest IH]; intros n line lineY k c H; simpl in H.
  - destruct k as [| k]; [| destruct k; discriminate H].
    injection H as <-. exists (trim line), lineY. split; [reflexivity |].
    change (inject_Z (Z.of_nat 0)) with 0. ring.
  - destruct (negb (Qle_bool (measureText (line ++ w ++ [Render.space])) maxWidth)
              && (0 <? n)%nat).
    + destruct k as [| k].
      * injection H as <-. exists (trim line), lineY. split; [reflexivity |].
        change (inject_Z (Z.of_nat 0)) with 0. ring.
      * destruct (IH _ _ _ _ _ H) as (l & yk & -> & E).
        exists l, yk. split; [reflexivity |].
        rewrite E, Nat2Z.inj_succ. unfold Z.succ. rewrite inject_Z_plus.
        change (inject_Z 1) with 1. ring.
    + exact (IH _ _ _ _ _ H).
Qed.

Lemma wrapLines_count (words : list jsstring) :
  forall (n : nat) (line : jsstring) (lineY : Q),
    (1 <= List.length (wrap words n line lineY) <= S (List.length words))%nat /\
    (n = 0%nat -> words <> [] ->
     (List.length (wrap words n line lineY) <= List.length words)%nat).
Proof.
  unfold wrap.
  induction words as [| w rest IH]; intros n line lineY; simpl.
  - split; [lia | congruence].
  - destruct n as [| n]; simpl.
    + rewrite andb_false_r.
      destruct (IH 1%nat (line ++ w ++ [Render.space]) lineY) as [A _].
      split; [lia | intros _ _; lia].
    + rewrite andb_true_r.
      destruct (negb (Qle_bool _ _)); simpl; split; try discriminate.
      * destruct (IH (S (S n)) (w ++ [Render.space]) (lineY + lineHeight)) as [A _]. lia.
      * destruct (IH (S (S n)) (line ++ w ++ [Render.space]) lineY) as [A _]. lia.
Qed.

(** A line is acceptable if it holds one word or fits the width. *)
Let ok (all : list jsstring) (p : jsstring) : Prop :=
  (exists w, In w all /\ p = w ++ [Render.space]) \/ measureText p <= maxWidth.

Lemma wrapLines_pieces (all words : list jsstring) :
  forall (n : nat) (line : jsstring) (lineY : Q),
    incl words all -> ok all line -> (0 < n)%nat ->
    exists pieces,
      Render.texts (wrap words n line lineY) = map trim pieces /\
      List.concat pieces = line ++ List.concat (map (fun w => w ++ [Render.space]) words) /\
      Forall (ok all) pieces.
Proof.
  unfold wrap.
  induction words as [| w rest IH]; intros n line lineY Hin Hok Hn; simpl.
  - exists [line]. simpl. rewrite !app_nil_r. repeat split. now constructor.
  - assert (Hrest : incl rest all) by (intros z Hz; apply Hin; now right).
    assert (Hw : In w all) by (apply Hin; now left).
    apply Nat.ltb_lt in Hn. rewrite Hn, andb_true_r.
    destruct (Qle_bool (measureText (line ++ w ++ [Render.space])) maxWidth) eqn:E; simpl.
    + apply Qle_bool_iff in E.
      destruct (IH (S n) (line ++ w ++ [Render.space]) lineY Hrest) as (ps & P1 & P2 & P3);
        [now right | lia |].
      exists ps. repeat split; try assumption.
      rewrite P2. now rewrite <- !app_assoc.
    + destruct (IH (S n) (w ++ [Render.space]) (lineY + lineHeight) Hrest)
        as (ps & P1 & P2 & P3); [left; now exists w | lia |].
      exists (line :: ps). simpl. rewrite P1, P2. repeat split.
      now constructor.
Qed.

Lemma wrapLines_fits (total : jsstring) (words : list jsstring) :
  forall (n : nat) (line : jsstring) (lineY : Q),
    (forall p rest, p ++ rest = total -> measureText p <= maxWidth) ->
    line ++ List.concat (map (fun w => w ++ [Render.space]) words) = total ->
    wrap words n line lineY = [Render.FillText (trim total) x lineY].
Proof.
  unfold wrap.
  induction words as [| w rest IH]; intros n line lineY Hfit Htot; simpl.
  - simpl in Htot. rewrite app_nil_r in Htot. now subst.
  - simpl in Htot.
    assert (F : measureText (line ++ w ++ [Render.space]) <= maxWidth).
    { apply (Hfit _ (List.concat (map (fun w => w ++ [Render.space]) rest))).
      rewrite <- Htot. now rewrite <- !app_assoc. }
    apply Qle_bool_iff in F. rewrite F. simpl.
    apply IH; [exact Hfit |]. rewrite <- Htot. now rewrite <- !app_assoc.
Qed.

End Wrap.

Lemma wrapText_one_word (measureText : jsstring -> Q)
    (t : jsstring) (x y maxWidth lineHeight : Q) :
  forallb (fun c => negb (c =? Render.space)%N) t = true ->
  Render.wrapText measureText (Some t) x y maxWidth lineHeight
    = Render.Completed [Render.FillText (trim t) x y].
Proof.
  intros H. simpl. f_equal.
  rewrite (split_whole _ _ H). simpl. rewrite andb_false_r.
  now rewrite trim_trailing_space.
Qed.

(** X11.  [wrapText] on a string paints at least one line and at most as
    many lines as the text has words, all at the same [x], the k-th one
    [k] line heights below [y]. *)
Theorem wrapText_line_positions (measureText : jsstring -> Q)
    (t : jsstring) (x y maxWidth lineHeight : Q) :
  exists cs,
    Render.wrapText measureText (Some t) x y maxWidth lineHeight
      = Render.Completed cs /\
    (1 <= List.length cs <= List.length (split Render.space t))%nat /\
    forall k c, nth_error cs k = Some c ->
      exists l yk, c = Render.FillText l x yk /\
                   yk == y + inject_Z (Z.of_nat k) * lineHeight.
Proof.
  eexists. split; [reflexivity |]. split.
  - destruct (wrapLines_count measureText x maxWidth lineHeight
                (split Render.space t) 0 [] y) as [[A _] B].
    split; [exact A | apply B; [reflexivity | apply split_never_nil]].
  - apply wrapLines_positions.
Qed.

Lemma wrapText_line_positions_witness :
  exists cs,
    Render.wrapText monospace (Some (str "Grace Hopper")) 0 0 50 20
      = Render.Completed cs /\
    (1 <= List.length cs <= List.length (split Render.space (str "Grace Hopper")))%nat /\
    forall k c, nth_error cs k = Some c ->
      exists l yk, c = Render.FillText l 0 yk /\
                   yk == 0 + inject_Z (Z.of_nat k) * 20.
Proof. exact (wrapText_line_positions monospace (str "Grace Hopper") 0 0 50 20). Defined.

Example wrapText_two_lines :
  Render.wrapText monospace (Some (str "Grace Hopper")) 0 0 50 20
  = Render.Completed [Render.FillText (str "Grace") 0 0;
                      Render.FillText (str "Hopper") 0 (0 + 20)].
Proof. reflexivity. Qed.

(** X12.  The lines [wrapText] paints are the trimmed consecutive pieces
    of the text followed by a space: nothing is lost or reordered.  A
    piece is wider than [maxWidth] only if it is a single word. *)
Theorem wrapText_lines_cover_text (measureText : jsstring -> Q)
    (t : jsstring) (x y maxWidth lineHeight : Q) :
  exists pieces,
    Render.texts (Render.issued
      (Render.wrapText measureText (Some t) x y maxWidth lineHeight))
      = map trim pieces /\
    List.concat pieces = t ++ [Render.space] /\
    Forall (fun p =>
              (exists w, In w (split Render.space t) /\ p = w ++ [Render.space])
              \/ measureText p <= maxWidth) pieces.
Proof.
  simpl.
  destruct (split Render.space t) as [| w rest] eqn:E;
    [now apply split_never_nil in E |].
  simpl. rewrite andb_false_r.
  destruct (wrapLines_pieces measureText x maxWidth lineHeight (w :: rest) rest
              1 (w ++ [Render.space]) y) as (ps & P1 & P2 & P3).
  - intros z Hz. now right.
  - left. exists w. split; [now left | reflexivity].
  - lia.
  - exists ps. split; [exact P1 |]. split; [| exact P3].
    rewrite P2.
    change ((w ++ [Render.space]) ++
            List.concat (map (fun w0 => w0 ++ [Render.space]) rest))
      with (List.concat (map (fun w0 => w0 ++ [Render.space]) (w :: rest))).
    rewrite concat_words by discriminate.
    rewrite <- E, (proj1 (join_split Render.space t)). reflexivity.
Qed.

(** X13.  If every prefix of the text followed by a space fits the width,
    or if the text has no space at all (however wide), [wrapText] paints
    the trimmed text as one line at [(x, y)]. *)
Theorem wrapText_single_line (measureText : jsstring -> Q)
    (t : jsstring) (x y maxWidth lineHeight : Q) :
  (forall p rest, p ++ rest = t ++ [Render.space] -> measureText p <= maxWidth)
  \/ forallb (fun c => negb (c =? Render.space)%N) t = true ->
  Render.wrapText measureText (Some t) x y maxWidth lineHeight
    = Render.Completed [Render.FillText (trim t) x y].
Proof.
  intros [H | H]; [| now apply wrapText_one_word].
  simpl. f_equal. rewrite <- trim_trailing_space.
  apply wrapLines_fits; [exact H |].
  rewrite concat_words by apply split_never_nil.
  now rewrite (proj1 (join_split Render.space t)).
Qed.

Lemma wrapText_single_line_witness :
  Render.wrapText monospace (Some (str "Charlie")) 0 0 20 30
    = Render.Completed [Render.FillText (trim (str "Charlie")) 0 0].
Proof. apply wrapText_single_line. right. reflexivity. Defined.

(** ** Drawing the wheel *)

Lemma unrestored_app (a b : list Render.command) (k : nat) :
  Render.unrestored (a ++ b) k =
  match Render.unrestored a k with
  | Some k' => Render.unrestored b k'
  | None => None
  end.
Proof.
  revert k. induction a as [| c a IH]; intros k; [reflexivity |].
  destruct c; simpl; auto. destruct k; auto.
Qed.

Lemma texts_app (a b : list Render.command) :
  Render.texts (a ++ b) = Render.texts a ++ Render.texts b.
Proof.
  induction a as [| c a IH]; [reflexivity |].
  destruct c; simpl; auto. now rewrite IH.
Qed.

Lemma arcs_app (a b : list Render.command) :
  Render.arcs (a ++ b) = Render.arcs a ++ Render.arcs b.
Proof.
  induction a as [| c a IH]; [reflexivity |].
  destruct c; simpl; auto. now rewrite IH.
Qed.

Lemma fills_app (a b : list Render.command) :
  Render.fills (a ++ b) = Render.fills a ++ Render.fills b.
Proof.
  induction a as [| c a IH]; [reflexivity |].
  destruct c; simpl; auto. now rewrite IH.
Qed.

(** [wrapText] only paints text. *)
Lemma wrapLines_only_text (measureText : jsstring -> Q) (x w h : Q)
    (words : list jsstring) :
  forall n line lineY,
    Forall (fun c => exists l a b, c = Render.FillText l a b)
           (Render.wrapLines measureText x w h words n line lineY).
Proof.
  induction words as [| v rest IH]; intros n line lineY; simpl.
  - repeat constructor. now exists (trim line), x, lineY.
  - destruct (_ && _); [constructor; [now exists (trim line), x, lineY |] |]; apply IH.
Qed.

Lemma only_text_observations (cs : list Render.command) :
  Forall (fun c => exists l a b, c = Render.FillText l a b) cs ->
  (forall k, Render.unrestored cs k = Some k) /\
  Render.arcs cs = [] /\ Render.fills cs = [].
Proof.
  induction 1 as [| c cs (l & a & b & ->) _ (IH1 & IH2 & IH3)]; simpl; auto.
Qed.

Lemma slices_complete (measureText : jsstring -> Q) (size : Q)
    (names : list jsstring) (anglePer : Q) (count : nat) :
  forall i, (i + count <= List.length names)%nat ->
    exists cs,
      Render.slices measureText size names anglePer count i = Render.Completed cs /\
      slices_summary measureText size names anglePer count i cs.
Proof.
  induction count as [| count IH]; intros i Hi.
  - exists []. split; [reflexivity |]. constructor; reflexivity.
  - destruct (nth_error names i) as [n |] eqn:En;
      [| apply nth_error_None in En; lia].
    destruct (IH (S i) ltac:(lia)) as (cs & Ecs & [S1 S2 S3 S4]).
    simpl. rewrite En. simpl. rewrite Ecs. simpl.
    eexists. split; [reflexivity |].
    set (ws := Render.wrapLines _ _ _ _ _ _ _ _).
    destruct (only_text_observations ws (wrapLines_only_text _ _ _ _ _ _ _ _))
      as (W1 & W2 & W3).
    assert (Esk : skipn i names = n :: skipn (S i) names).
    { clear - En. revert i En. induction names as [| a l IHl]; intros i En.
      - destruct i; discriminate En.
      - destruct i; [injection En as ->; reflexivity | apply (IHl i En)]. }
    constructor.
    + intros k. simpl. rewrite !unrestored_app, W1. simpl. apply S1.
    + simpl. rewrite !arcs_app, W2. simpl. now rewrite S2.
    + simpl. rewrite !fills_app, W3. simpl. now rewrite S3.
    + simpl. rewrite !texts_app. simpl. rewrite S4, Esk, app_nil_r. reflexivity.
Qed.

(** X14.  On a non-empty list [drawWheel] returns, and it restores the
    context as often as it saved it, never more at any point: no
    transform leaks into the next call. *)
Theorem drawWheel_restores_context (measureText : jsstring -> Q) (size rotDeg : Q)
    (names : list jsstring) :
  names <> [] ->
  exists cs,
    Render.drawWheel measureText size rotDeg names = Render.Completed cs /\
    forall k, Render.unrestored cs k = Some k.
Proof.
  intros Hn. unfold Render.drawWheel.
  assert (EN : Nat.max 1 (List.length names) = List.length names)
    by (destruct names; [congruence | simpl; lia]).
  rewrite EN.
  destruct (slices_complete measureText size names
              (2 / inject_Z (Z.of_nat (List.length names)))
              (List.length names) 0 ltac:(lia)) as (cs & Ecs & [S1 _ _ _]).
  rewrite Ecs. eexists. split; [reflexivity |].
  intros k. simpl. rewrite unrestored_app, S1. reflexivity.
Qed.

Lemma drawWheel_restores_context_witness :
  exists cs,
    Render.drawWheel monospace 400 30 namesAB = Render.Completed cs /\
    forall k, Render.unrestored cs k = Some k.
Proof. apply drawWheel_restores_context. discriminate. Defined.

(** X15.  On the empty list [drawWheel] draws one placeholder slice and
    then throws a [TypeError] inside [wrapText]: no text and no outer ring
    are drawn, and two saved contexts are left unrestored. *)
Theorem drawWheel_empty_names_throws (measureText : jsstring -> Q) (size rotDeg : Q) :
  exists cs,
    Render.drawWheel measureText size rotDeg [] = Render.TypeError cs /\
    Render.unrestored cs 0 = Some 2%nat /\
    Render.texts cs = [] /\
    Render.arcs cs = [(Render.radius size, 0 * (2 / 1), 0 * (2 / 1) + 2 / 1)].
Proof. eexists. repeat split. Qed.

(** X16.  On a non-empty list [drawWheel] traces one arc of radius
    [radius] for each name, the one of slice [j] from [j * anglePer] to
    that angle plus [anglePer], with [anglePer] the full circle divided by
    the number of names, and then the outer ring at [radius + 4] over the
    full circle. *)
Theorem drawWheel_slice_arcs (measureText : jsstring -> Q) (size rotDeg : Q)
    (names : list jsstring) :
  names <> [] ->
  let anglePer := 2 / inject_Z (Z.of_nat (List.length names)) in
  exists cs,
    Render.drawWheel measureText size rotDeg names = Render.Completed cs /\
    Render.arcs cs =
      map (fun j => (Render.radius size,
                     inject_Z (Z.of_nat j) * anglePer,
                     inject_Z (Z.of_nat j) * anglePer + anglePer))
          (seq 0 (List.length names))
      ++ [(Render.radius size + 4, 0, 2)].
Proof.
  intros Hn anglePer. unfold Render.drawWheel.
  assert (EN : Nat.max 1 (List.length names) = List.length names)
    by (destruct names; [congruence | simpl; lia]).
  rewrite EN. fold anglePer.
  destruct (slices_complete measureText size names anglePer
              (List.length names) 0 ltac:(lia)) as (cs & Ecs & [_ S2 _ _]).
  rewrite Ecs. eexists. split; [reflexivity |].
  simpl. rewrite arcs_app, S2. reflexivity.
Qed.

Lemma drawWheel_slice_arcs_witness :
  exists cs,
    Render.drawWheel monospace 400 30 namesAB = Render.Completed cs /\
    Render.arcs cs =
      [(Render.radius 400, inject_Z 0 * (2 / inject_Z 2),
        inject_Z 0 * (2 / inject_Z 2) + 2 / inject_Z 2);
       (Render.radius 400, inject_Z 1 * (2 / inject_Z 2),
        inject_Z 1 * (2 / inject_Z 2) + 2 / inject_Z 2);
       (Render.radius 400 + 4, 0, 2)].
Proof.
  apply (drawWheel_slice_arcs monospace 400 30 namesAB). discriminate.
Defined.

(** X17.  The fill colour alternates from one slice to the next, so
    neighbours differ, except where the wheel closes: with an odd number
    of names the last slice has the colour of the first, with an even
    number it has the other colour. *)
Theorem drawWheel_slice_colours (measureText : jsstring -> Q) (size rotDeg : Q)
    (names : list jsstring) :
  names <> [] ->
  (exists cs,
     Render.drawWheel measureText size rotDeg names = Render.Completed cs /\
     Render.fills cs =
       List.concat (map (fun j => [Render.sliceColor j; str "#122049"])
                        (seq 0 (List.length names)))) /\
  (forall i, Render.sliceColor i <> Render.sliceColor (S i)) /\
  (Nat.odd (List.length names) = true ->
   Render.sliceColor (List.length names - 1) = Render.sliceColor 0) /\
  (Nat.even (List.length names) = true ->
   Render.sliceColor (List.length names - 1) <> Render.sliceColor 0).
Proof.
  intros Hn. split; [| split; [| split]].
  - unfold Render.drawWheel.
    assert (EN : Nat.max 1 (List.length names) = List.length names)
      by (destruct names; [congruence | simpl; lia]).
    rewrite EN.
    destruct (slices_complete measureText size names
                (2 / inject_Z (Z.of_nat (List.length names)))
                (List.length names) 0 ltac:(lia)) as (cs & Ecs & [_ _ S3 _]).
    rewrite Ecs. eexists. split; [reflexivity |].
    simpl. rewrite fills_app, S3. simpl. now rewrite app_nil_r.
  - intros i. unfold Render.sliceColor. rewrite Nat.even_succ, <- Nat.negb_even.
    destruct (Nat.even i); discriminate.
  - intros H. destruct (List.length names) as [| n]; [discriminate H |].
    simpl. rewrite Nat.sub_0_r. unfold Render.sliceColor.
    rewrite Nat.odd_succ in H. now rewrite H.
  - intros H. destruct (List.length names) as [| n] eqn:E;
      [destruct names; [congruence | discriminate E] |].
    simpl. rewrite Nat.sub_0_r. unfold Render.sliceColor.
    rewrite Nat.even_succ, <- Nat.negb_even in H.
    apply negb_true_iff in H. rewrite H. discriminate.
Qed.

Lemma drawWheel_slice_colours_witness :
  Render.sliceColor (List.length defaultNames - 1) <> Render.sliceColor 0 /\
  Render.sliceColor (List.length [str "A"; str "B"; str "C"] - 1) = Render.sliceColor 0.
Proof.
  split.
  - apply (drawWheel_slice_colours monospace 400 0 defaultNames); [discriminate | reflexivity].
  - apply (drawWheel_slice_colours monospace 400 0 [str "A"; str "B"; str "C"]);
      [discriminate | reflexivity].
Defined.

(** X18.  When no name contains a space, the texts [drawWheel] paints
    are exactly the names, trimmed, in list order, one line each. *)
Theorem drawWheel_paints_names (measureText : jsstring -> Q) (size rotDeg : Q)
    (names : list jsstring) :
  names <> [] ->
  Forall (fun n => forallb (fun c => negb (c =? Render.space)%N) n = true) names ->
  exists cs,
    Render.drawWheel measureText size rotDeg names = Render.Completed cs /\
    Render.texts cs = map trim names.
Proof.
  intros Hn Hw. unfold Render.drawWheel.
  assert (EN : Nat.max 1 (List.length names) = List.length names)
    by (destruct names; [congruence | simpl; lia]).
  rewrite EN.
  destruct (slices_complete measureText size names
              (2 / inject_Z (Z.of_nat (List.length names)))
              (List.length names) 0 ltac:(lia)) as (cs & Ecs & [_ _ _ S4]).
  rewrite Ecs. eexists. split; [reflexivity |].
  rewrite !texts_app, S4.
  set (f := fun n : jsstring => Render.texts _).
  simpl. rewrite app_nil_r, firstn_all.
  clear - Hw. induction Hw as [| n l Hn _ IH]; [reflexivity |].
  cbn [map List.concat]. rewrite IH. unfold f at 1.
  rewrite (wrapText_one_word measureText n 0 0 _ _ Hn).
  reflexivity.
Qed.

Lemma drawWheel_paints_names_witness :
  exists cs,
    Render.drawWheel monospace 400 0 defaultNames = Render.Completed cs /\
    Render.texts cs = map trim defaultNames.
Proof.
  apply drawWheel_paints_names; [discriminate |].
  repeat constructor.
Defined.
